(** * matrix-class: a shallow embedding of [lib/matrix.mjs]

    The class [Matrix] keeps its elements in a [Float32Array] and does its
    arithmetic on JavaScript numbers (IEEE 754 binary64).  The embedding
    keeps both: a JavaScript number is a [spec_float] of the binary64
    format, storing into the typed array rounds to binary32 ([fround]),
    reading back widens exactly.  Thrown [Error]s are the [Throw] case of
    [result]; loops are folds over the index ranges they run through.
    Sizes and indices are integers ([Z]); they may be zero or negative, as
    the constructor only compares the number of values with
    [ySize * xSize]. *)

From Stdlib Require Import ZArith Bool Floats.SpecFloat.
From stdpp Require Import base tactics option list list_numbers.

Local Open Scope Z_scope.

(** ** JavaScript numbers *)

Module Num.

Definition num : Type := spec_float.

Definition prec64 : Z := 53.
Definition emax64 : Z := 1024.
Definition prec32 : Z := 24.
Definition emax32 : Z := 128.

Definition add : num → num → num := SFadd prec64 emax64.
Definition sub : num → num → num := SFsub prec64 emax64.
Definition mul : num → num → num := SFmul prec64 emax64.
Definition div : num → num → num := SFdiv prec64 emax64.

(** [a === b] on two numbers: [NaN] differs from itself, [+0 === -0]. *)
Definition strict_eq (a b : num) : bool := SFeqb a b.

(** An integer literal. *)
Definition of_Z (z : Z) : num := binary_normalize prec64 emax64 z 0 false.

Definition zero : num := S754_zero false.
Definition NaN : num := S754_nan.
Definition Infinity : num := S754_infinity false.

(** [Math.fround]: what storing a number into a [Float32Array] and reading
    it back yields.  Rounding to binary32 is to nearest, ties to even;
    the way back to binary64 is exact. *)
Definition fround (x : num) : num :=
  match x with
  | S754_finite s m e =>
      match binary_round prec32 emax32 s m e with
      | S754_finite s' m' e' => binary_round prec64 emax64 s' m' e'
      | y => y
      end
  | _ => x
  end.

(** [Math.pow(-1, x)] at an integer [x]. *)
Definition pow_neg1 (x : Z) : num := if Z.even x then of_Z 1 else of_Z (-1).

(** Neither [NaN] nor an infinity. *)
Definition is_finite (x : num) : bool :=
  match x with
  | S754_zero _ | S754_finite _ _ _ => true
  | _ => false
  end.

Definition is_zero (x : num) : bool :=
  match x with
  | S754_zero _ => true
  | _ => false
  end.

(** A zero, or a finite number of magnitude below [2^B]. *)
Definition finite_below (B : Z) (x : num) : Prop :=
  match x with
  | S754_zero _ => True
  | S754_finite _ m e => Zpos (digits2_pos m) + e <= B
  | _ => False
  end.

(** A zero, or a number of [prec] digits and of magnitude below [2^B]. *)
Definition normal_below (prec B : Z) (x : num) : Prop :=
  match x with
  | S754_zero _ => True
  | S754_finite _ m e =>
      Zpos (digits2_pos m) = prec /\ Zpos (digits2_pos m) + e <= B
  | _ => False
  end.

End Num.

Import Num.

(** ** Thrown errors and the error monad *)

Inductive error : Type :=
  | NotEnoughValues      (* 'The matrix does not have enough values' *)
  | TooManyValues        (* 'The matrix has too many values' *)
  | NotSquare            (* '... is not square and has no determinant.' *)
  | NoInverse            (* '... has no inverse matrix' *)
  | InvalidArrayLength   (* RangeError of [new Array(n)] at a negative n *)
  | StackOverflow.       (* RangeError: the recursion budget is used up *)

Inductive result (A : Type) : Type :=
  | Ok (a : A)
  | Throw (e : error).
Arguments Ok {A} a.
Arguments Throw {A} e.

#[global] Instance result_ret : MRet result := λ A a, Ok a.
#[global] Instance result_bind : MBind result := λ A B f r,
  match r with
  | Ok a => f a
  | Throw e => Throw e
  end.
#[global] Instance result_fmap : FMap result := λ A B f r,
  match r with
  | Ok a => Ok (f a)
  | Throw e => Throw e
  end.

(** A loop whose body may throw: the first throw ends it. *)
Fixpoint foldlM {A B : Type} (f : A → B → result A) (a : A) (l : list B)
  : result A :=
  match l with
  | [] => Ok a
  | b :: l' => a' ← f a b; foldlM f a' l'
  end.

(** ** Arrays *)

(** An element of a plain [Array]: [None] is [undefined] (or a hole, which
    reads as [undefined]). *)
Abbreviation jsval := (option num) (only parsing).
Abbreviation jsarray := (list (option num)) (only parsing).

(** [ToNumber]: [undefined] becomes [NaN]. *)
Definition to_number (v : jsval) : num := default NaN v.

(** [new Array(n)]: [n] holes; a negative length is a RangeError.  So is a
    length above [2^32 - 1]: that limit is not part of this function, and
    the properties that need it state it, see [max_array_length]. *)
Definition Array_new (n : Z) : result jsarray :=
  if n <? 0 then Throw InvalidArrayLength else Ok (replicate (Z.to_nat n) None).

(** [a.fill(v)] *)
Definition fill (v : num) (a : jsarray) : jsarray :=
  replicate (length a) (Some v).

(** [a.push(v)] *)
Definition push (a : jsarray) (v : jsval) : jsarray := a ++ [v].

(** [a[i]]: out of range reads [undefined]. *)
Definition array_get (a : jsarray) (i : Z) : jsval :=
  if i <? 0 then None else mjoin (a !! Z.to_nat i).

(** [a[i] = v]: past the end the array grows, the gap being holes; a negative
    index names a property, not an element. *)
Definition array_set (a : jsarray) (i : Z) (v : jsval) : jsarray :=
  if i <? 0 then a
  else if i <? Z.of_nat (length a) then <[Z.to_nat i := v]> a
  else a ++ replicate (Z.to_nat i - length a)%nat None ++ [v].

(** [a[i] += v] *)
Definition array_add_assign (a : jsarray) (i : Z) (v : num) : jsarray :=
  array_set a i (Some (add (to_number (array_get a i)) v)).

(** A [Float32Array]: every element is a binary32 value. *)
Abbreviation float32array := (list num) (only parsing).

(** [Float32Array.from(values)] *)
Definition Float32Array_from (a : jsarray) : float32array :=
  (λ v, fround (to_number v)) <$> a.

(** [ta[i]] on a typed array. *)
Definition typed_get (ta : float32array) (i : Z) : jsval :=
  if i <? 0 then None else ta !! Z.to_nat i.

(** A typed array handed to code that expects any iterable of numbers. *)
Definition typed_to_array (ta : float32array) : jsarray := Some <$> ta.

(** [ta.slice(begin, end)]: a negative index counts from the end, and both
    indices are clamped to the array. *)
Definition slice_index (len i : Z) : Z :=
  if i <? 0 then Z.max (len + i) 0 else Z.min i len.

Definition typed_slice (ta : float32array) (b e : Z) : float32array :=
  let k := slice_index (Z.of_nat (length ta)) b in
  let final := slice_index (Z.of_nat (length ta)) e in
  take (Z.to_nat (final - k)) (drop (Z.to_nat k) ta).

(** [ta.map(fn)]: the results are stored in a new [Float32Array]. *)
Definition typed_map (fn : num → num) (ta : float32array) : float32array :=
  (λ v, fround (fn v)) <$> ta.

(** ** The class *)

Module Matrix.

Record t : Type := mk {
  values : float32array;
  ySize : Z;
  xSize : Z
}.

(** [new Matrix(ySize, xSize, values)] *)
Definition new (ySize xSize : Z) (vals : jsarray) : result t :=
  let this := mk (Float32Array_from vals) ySize xSize in
  if Z.of_nat (length (values this)) <? ySize * xSize then Throw NotEnoughValues
  else if ySize * xSize <? Z.of_nat (length (values this)) then Throw TooManyValues
  else Ok this.

(** [Matrix.matrix(y, x)(...args)] *)
Definition matrix (y x : Z) (args : list num) : result t :=
  new y x (Some <$> args).

(** [Matrix.identity(size)] *)
Definition identity (size : Z) : result t :=
  a ← Array_new (size * size);
  let values :=
    foldl (λ values i, array_set values (i * size + i) (Some (of_Z 1)))
          (fill zero a) (seqZ 0 size) in
  new size size values.

(** [Matrix.scalar(ySize, xSize, value)] *)
Definition scalar (ySize xSize : Z) (value : num) : result t :=
  a ← Array_new (ySize * xSize);
  new ySize xSize (fill value a).

(** [Matrix.vector(values)] *)
Definition vector (vals : list num) : result t :=
  new (Z.of_nat (length vals)) 1 (Some <$> vals).

(** [m.get(y, x)] *)
Definition get (m : t) (y x : Z) : jsval :=
  typed_get (values m) (y * xSize m + x).

(** [a !== b] where [a] is a number and [b] may be [undefined]. *)
Definition strict_ne (a : num) (b : jsval) : bool :=
  match b with
  | Some b' => negb (strict_eq a b')
  | None => true
  end.

(** [m.eq(b)] *)
Definition eq (m b : t) : bool :=
  if negb (xSize m =? xSize b) || negb (ySize m =? ySize b) then false
  else
    forallb (λ i, negb (strict_ne (to_number (typed_get (values m) i))
                                  (typed_get (values b) i)))
            (seqZ 0 (Z.of_nat (length (values m)))).

(** [m.map(fn)] *)
Definition map (fn : num → num) (m : t) : result t :=
  new (ySize m) (xSize m) (typed_to_array (typed_map fn (values m))).

(** [m.reduce(fn, initial)] *)
Definition reduce {A : Type} (fn : A → num → A) (initial : A) (m : t) : A :=
  foldl fn initial (values m).

(** [m.transpose()] *)
Definition transpose (m : t) : result t :=
  a ← Array_new (xSize m * ySize m);
  let result :=
    foldl (λ result y,
      foldl (λ result x,
        array_set result (y + x * ySize m)
                  (typed_get (values m) (y * xSize m + x)))
        result (seqZ 0 (xSize m)))
      a (seqZ 0 (ySize m)) in
  new (xSize m) (ySize m) result.

(** [m.rotate()]: the inner loop runs [y] from [ySize - 1] down to [0]. *)
Definition rotate (m : t) : result t :=
  let result :=
    foldl (λ result x,
      foldl (λ result y,
        push result (typed_get (values m) (y * xSize m + x)))
        result (reverse (seqZ 0 (ySize m))))
      [] (seqZ 0 (xSize m)) in
  new (xSize m) (ySize m) result.

(** [m.minor(y, x)].  [%] is the remainder that truncates; the quotient
    under [Math.floor] has a non-negative dividend and a positive divisor
    wherever the loop body runs. *)
Definition minor (m : t) (y x : Z) : result t :=
  let vals :=
    foldl (λ vals iy,
      foldl (λ vals ix,
        let sourceix := iy * xSize m + ix in
        if negb (Z.rem sourceix (xSize m) =? x)
           && negb (sourceix / xSize m =? y)
        then push vals (typed_get (values m) sourceix)
        else vals)
        vals (seqZ 0 (xSize m)))
      [] (seqZ 0 (ySize m)) in
  new (ySize m - 1) (xSize m - 1) vals.

(** [m.minors()] *)
Definition minors (m : t) : result (list t) :=
  foldlM (λ result y,
    foldlM (λ result x, mi ← minor m y x; Ok (result ++ [mi]))
           result (seqZ 0 (xSize m)))
    [] (seqZ 0 (ySize m)).

(** [m.determinant()], with a budget on the depth of the recursion: a call
    that would go deeper than [depth] overflows the stack. *)
Fixpoint determinant_rec (depth : nat) (m : t) : result num :=
  if negb (xSize m =? ySize m) then Throw NotSquare
  else if (xSize m =? 2) && (ySize m =? 2) then
    Ok (sub (mul (to_number (get m 0 0)) (to_number (get m 1 1)))
            (mul (to_number (get m 0 1)) (to_number (get m 1 0))))
  else
    foldlM (λ sum x,
      mi ← minor m 0 x;
      d ← match depth with
          | O => Throw StackOverflow
          | S depth' => determinant_rec depth' mi
          end;
      Ok (add sum (mul (mul (to_number (typed_get (values m) x)) d)
                       (pow_neg1 x))))
      zero (seqZ 0 (xSize m)).

(** The recursion goes [xSize] deep at most, see [determinant_unfold]. *)
Definition determinant (m : t) : result num :=
  determinant_rec (Z.to_nat (xSize m)) m.

(** [array.map((minor, ix) => ...)] with a callback that may throw. *)
Definition mapiM {A B : Type} (f : A → Z → result B) (l : list A)
  : result (list B) :=
  mapM (λ p, f p.2 p.1) (zip (seqZ 0 (Z.of_nat (length l))) l).

(** [m.adjugate()] *)
Definition adjugate (m : t) : result t :=
  tr ← transpose m;
  ms ← minors tr;
  vals ← mapiM (λ minor ix, d ← determinant minor; Ok (mul d (pow_neg1 ix))) ms;
  new (ySize m) (xSize m) (Some <$> vals).

(** [m.inverse()] *)
Definition inverse (m : t) : result t :=
  determinant ← determinant m;
  if strict_eq determinant zero then Throw NoInverse
  else a ← adjugate m; map (λ x, div x determinant) a.

(** [m.mirror()] *)
Definition mirror (m : t) : result t :=
  let result :=
    foldl (λ result y,
      let slice := typed_slice (values m) (y * xSize m)
                               (y * xSize m + xSize m) in
      result ++ typed_to_array (reverse slice))
      [] (seqZ 0 (ySize m)) in
  new (ySize m) (xSize m) result.

(** The argument of [multiply]: [typeof multiplier === 'number'] or not. *)
Inductive multiplier : Type :=
  | Number (s : num)
  | Mat (b : t).

(** [m.multiply(multiplier)] *)
Definition multiply (m : t) (mu : multiplier) : result t :=
  b ← match mu with
      | Number s => i ← identity (xSize m); map (λ x, mul x s) i
      | Mat b => Ok b
      end;
  a ← Array_new (ySize m * xSize b);
  let result :=
    foldl (λ result y,
      foldl (λ result x,
        foldl (λ result z,
          array_add_assign result (x + y * xSize b)
            (mul (to_number (get m y z)) (to_number (get b z x))))
          result (seqZ 0 (xSize m)))
        result (seqZ 0 (xSize b)))
      (fill zero a) (seqZ 0 (ySize m)) in
  new (ySize m) (xSize b) result.

(** [m.col(x)] *)
Definition col (m : t) (x : Z) : result t :=
  let result :=
    foldl (λ result y, push result (typed_get (values m) (x + y * xSize m)))
          [] (seqZ 0 (ySize m)) in
  new (ySize m) 1 result.

(** [m.row(y)] *)
Definition row (m : t) (y : Z) : result t :=
  let result := typed_slice (values m) (y * xSize m)
                            (y * xSize m + xSize m) in
  new 1 (xSize m) (typed_to_array result).

End Matrix.


Import Matrix.

(** ** Receivers *)

(** What the constructor leaves behind when it is given sizes that are
    natural numbers: as many elements as [ySize * xSize]. *)
Definition valid (m : Matrix.t) : Prop :=
  0 ≤ ySize m ∧ 0 ≤ xSize m ∧ Z.of_nat (length (values m)) = ySize m * xSize m.

(** The elements live in a [Float32Array]: storing one again changes nothing. *)
Definition float32_valued (m : Matrix.t) : Prop :=
  Forall (λ v, fround v = v) (values m).

(** No element is [NaN] or an infinity. *)
Definition finite_valued (m : Matrix.t) : Prop :=
  Forall (λ v, is_finite v = true) (values m).

Definition square (n : Z) (m : Matrix.t) : Prop :=
  ySize m = n ∧ xSize m = n.

(** Every element is a zero, of either sign. *)
Definition all_zero (m : Matrix.t) : Prop :=
  Forall (λ v, is_zero v = true) (values m).

(** These are decidable: on a given matrix they can be computed. *)
#[global] Instance spec_float_eq_dec : EqDecision spec_float.
Proof. solve_decision. Defined.

#[global] Instance valid_dec (m : Matrix.t) : Decision (valid m).
Proof. unfold valid. apply _. Defined.

#[global] Instance float32_valued_dec (m : Matrix.t) :
  Decision (float32_valued m).
Proof. unfold float32_valued. apply _. Defined.

#[global] Instance finite_valued_dec (m : Matrix.t) :
  Decision (finite_valued m).
Proof. unfold finite_valued. apply _. Defined.

#[global] Instance all_zero_dec (m : Matrix.t) : Decision (all_zero m).
Proof. unfold all_zero. apply _. Defined.

#[global] Instance square_dec (n : Z) (m : Matrix.t) : Decision (square n m).
Proof. unfold square. apply _. Defined.

(** ** The operations in the words of the specification *)

(** Cofactor expansion along the first row: the sum over [x] of
    [element(0,x) * minor(0,x).determinant() * (−1)^x]. *)
Definition cofactor_expansion (m : Matrix.t) : result num :=
  terms ← mapM (λ x,
             mi ← minor m 0 x;
             d ← determinant mi;
             Ok (mul (mul (to_number (get m 0 x)) d) (pow_neg1 x)))
           (seqZ 0 (xSize m));
  Ok (foldl add zero terms).

(** The 2×2 formula [ad − bc]. *)
Definition ad_minus_bc (m : Matrix.t) : num :=
  let a := to_number (get m 0 0) in
  let b := to_number (get m 0 1) in
  let c := to_number (get m 1 0) in
  let d := to_number (get m 1 1) in
  sub (mul a d) (mul b c).

(** Minor: the elements left when row [y] and column [x] are deleted. *)
Definition minor_values (m : Matrix.t) (y x : Z) : jsarray :=
  iy ← seqZ 0 (ySize m);
  ix ← seqZ 0 (xSize m);
  if negb (ix =? x) && negb (iy =? y) then [get m iy ix] else [].

(** The minors in row-major order, as a function of the flattened index. *)
Definition minor_at (m : Matrix.t) (k : Z) : result Matrix.t :=
  minor m (k `div` xSize m) (k `mod` xSize m).

(** Transposition: [result[x][y] = source[y][x]], written row after row of
    the result. *)
Definition transposed (m : Matrix.t) : list (option num) :=
  x ← seqZ 0 (xSize m);
  y ← seqZ 0 (ySize m);
  [get m y x].

(** Adjugate: transpose, take the minors of the transposed matrix in
    row-major order, multiply each minor's determinant by [(−1)] raised to
    its flattened index, assemble in the receiver's shape. *)
Definition adjugate_spec (m : Matrix.t) : result Matrix.t :=
  tr ← new (xSize m) (ySize m) (transposed m);
  ms ← mapM (minor_at tr) (seqZ 0 (ySize tr * xSize tr));
  ds ← mapM determinant ms;
  new (ySize m) (xSize m)
      (Some <$> zip_with (λ d k, mul d (pow_neg1 k)) ds
                         (seqZ 0 (Z.of_nat (length ds)))).

(** The checkerboard sign [(−1)^(row+col)] of the textbook cofactor. *)
Definition checkerboard (n k : Z) : num := pow_neg1 (k `div` n + k `mod` n).

(** Rotation: for each source column [x], the source rows from the last to
    the first. *)
Definition rotated (m : Matrix.t) : jsarray :=
  x ← seqZ 0 (xSize m);
  y ← reverse (seqZ 0 (ySize m));
  [get m y x].

(** The scalar as the scaled identity stores it. *)
Definition stored_scalar (s : num) : num :=
  fround (fround (mul (fround (of_Z 1)) s)).

(** The zero off the diagonal, as the scaled identity stores it. *)
Definition stored_zero (s : num) : num :=
  fround (fround (mul (fround zero) s)).

(** One element scaled: the sum the product loop forms starts from [0]. *)
Definition scaled (k v : num) : num := fround (add zero (mul v k)).

(** The multiplier that [multiply] builds for a number. *)
Definition scaled_identity (n : Z) (s : num) : result Matrix.t :=
  i ← identity n; map (λ x, mul x s) i.

(** Entry [(y, x)] of the product: the sum over [z < a.xSize], from [0]. *)
Definition product_entry (a b : Matrix.t) (y x : Z) : num :=
  foldl (λ sum z, add sum (mul (to_number (get a y z)) (to_number (get b z x))))
        zero (seqZ 0 (xSize a)).

(** The product as a flat array, row after row. *)
Definition product_values (a b : Matrix.t) : jsarray :=
  y ← seqZ 0 (ySize a);
  x ← seqZ 0 (xSize b);
  [Some (product_entry a b y x)].

(** The flat array of [identity(n)], before it is stored. *)
Definition identity_values (n : Z) : jsarray :=
  y ← seqZ 0 n;
  x ← seqZ 0 n;
  [Some (if y =? x then of_Z 1 else zero)].

(** ** Matrices of the tests and of the examples *)

Definition ofZs (l : list Z) : list num := of_Z <$> l.

Definition m22 : Matrix.t := Matrix.mk (ofZs [1; 2; 3; 4]) 2 2.
Definition m32 : Matrix.t := Matrix.mk (ofZs [1; 2; 3; 4; 5; 6]) 3 2.
Definition m23_rotated : Matrix.t := Matrix.mk (ofZs [5; 3; 1; 6; 4; 2]) 2 3.
Definition m33_det74 : Matrix.t :=
  Matrix.mk (ofZs [1; 5; 3; 2; 4; 7; 4; 6; 2]) 3 3.
Definition minvertable : Matrix.t :=
  Matrix.mk (ofZs [1; 2; 3; 0; 1; 4; 5; 6; 0]) 3 3.
Definition m11 : Matrix.t := Matrix.mk (ofZs [5]) 1 1.
Definition m00 : Matrix.t := Matrix.mk [] 0 0.
Definition m12 : Matrix.t := Matrix.mk (ofZs [1; 2]) 1 2.
Definition identity2 : Matrix.t := Matrix.mk (ofZs [1; 0; 0; 1]) 2 2.
Definition identity4 : Matrix.t :=
  Matrix.mk (ofZs [1; 0; 0; 0; 0; 1; 0; 0; 0; 0; 1; 0; 0; 0; 0; 1]) 4 4.
(** [1e39] is a number, but too large for binary32: it is stored as
    [Infinity]. *)
Definition huge : num := of_Z (10 ^ 39).

Definition m11_huge : Matrix.t := Matrix.mk [Infinity] 1 1.
Definition m12_huge_one : Matrix.t := Matrix.mk [Infinity; of_Z 1] 1 2.
Definition m22_huge : Matrix.t := Matrix.mk (Infinity :: ofZs [0; 0; 1]) 2 2.

(** ** Further operations in plain terms *)

(** An array written row after row: [h y x] at row [y], column [x]. *)
Definition row_major {A : Type} (ys xs : Z) (h : Z → Z → A) : list A :=
  y ← seqZ 0 ys; x ← seqZ 0 xs; [h y x].

(** Mirroring: every row from its last element to its first. *)
Definition mirrored (m : Matrix.t) : list (option num) :=
  row_major (ySize m) (xSize m) (λ y x, get m y (xSize m - 1 - x)).

(** The index in the source of the [i]-th row (or column) that is left when
    the one at [k] is deleted. *)
Definition skip (k i : Z) : Z := if i <? k then i else i + 1.

(** No element is [NaN]. *)
Definition no_NaN (m : Matrix.t) : Prop :=
  Forall (λ v, v ≠ NaN) (values m).

(** The elements are pairwise [===]. *)
Definition strict_eq_values (a b : list num) : Prop :=
  Forall2 (λ u v, strict_eq u v = true) a b.

(** An [Array] holds [2^32 - 1] elements at most: [new Array(n)] is a
    RangeError above that as it is below zero.  [Array_new] leaves the upper
    limit out; where a length is computed from sizes that are not those of
    one matrix at hand, the properties below carry the limit as a
    hypothesis. *)
Definition max_array_length : Z := 2 ^ 32 - 1.

(** * Properties *)

(** ** The error monad and the loops *)

Lemma bind_Ok_inv {A B : Type} (r : result A) (f : A → result B) (b : B) :
  r ≫= f = Ok b → ∃ a, r = Ok a ∧ f a = Ok b.
Proof. destruct r as [a|e]; cbn; [eauto | discriminate]. Qed.

Lemma foldlM_ext {A B : Type} (f g : A → B → result A) (a : A) (l : list B) :
  (∀ a b, b ∈ l → f a b = g a b) → foldlM f a l = foldlM g a l.
Proof.
  revert a. induction l as [|b l IH]; intros a Hfg; cbn; [done|].
  rewrite Hfg by left. destruct (g a b) as [a'|e]; cbn; [|done].
  apply IH. intros a'' b' Hin. apply Hfg. by right.
Qed.

Lemma foldlM_total {A B : Type} (P : A → Prop) (f : A → B → result A)
    (a : A) (l : list B) :
  P a →
  (∀ a b, P a → b ∈ l → ∃ a', f a b = Ok a' ∧ P a') →
  ∃ r, foldlM f a l = Ok r ∧ P r.
Proof.
  revert a. induction l as [|b l IH]; intros a Ha Hstep; cbn; [eauto|].
  destruct (Hstep a b Ha) as (a' & -> & Ha'); [left|]. cbn.
  apply IH; [done|]. intros a'' b' Ha'' Hin. apply Hstep; [done | by right].
Qed.

(** A loop that adds one term per round: the terms first, the sum after. *)
Lemma foldlM_sum {B : Type} (term : B → result num) (l : list B) (acc : num) :
  foldlM (λ sum x, t ← term x; Ok (add sum t)) acc l
  = ts ← mapM term l; Ok (foldl add acc ts).
Proof.
  revert acc. induction l as [|b l IH]; intros acc; cbn; [done|].
  destruct (term b) as [t|e]; cbn; [|done]. rewrite IH.
  by destruct (mapM term l).
Qed.

(** A loop that pushes one result per round. *)
Lemma foldlM_push {A B : Type} (f : B → result A) (l : list B) (acc : list A) :
  foldlM (λ res x, a ← f x; Ok (res ++ [a])) acc l
  = r ← mapM f l; Ok (acc ++ r).
Proof.
  revert acc. induction l as [|b l IH]; intros acc; cbn.
  - by rewrite app_nil_r.
  - destruct (f b) as [a|e]; cbn; [|done]. rewrite IH.
    destruct (mapM f l) as [r|e]; cbn; [|done]. by rewrite <- app_assoc.
Qed.

Lemma mapM_ext_in {A B : Type} (f g : A → result B) (l : list A) :
  (∀ a, a ∈ l → f a = g a) → mapM f l = mapM g l.
Proof.
  induction l as [|a l IH]; intros Hfg; cbn; [done|].
  rewrite Hfg by left. rewrite IH; [done|]. intros a' Hin. apply Hfg. by right.
Qed.

Lemma mapM_app {A B : Type} (f : A → result B) (l k : list A) :
  mapM f (l ++ k) = r1 ← mapM f l; r2 ← mapM f k; Ok (r1 ++ r2).
Proof.
  induction l as [|a l IH]; cbn.
  - by destruct (mapM f k).
  - destruct (f a) as [b|e]; cbn; [|done]. rewrite IH.
    destruct (mapM f l) as [r1|e]; cbn; [|done].
    by destruct (mapM f k).
Qed.

Lemma mapM_fmap {A B C : Type} (f : B → result C) (g : A → B) (l : list A) :
  mapM f (g <$> l) = mapM (f ∘ g) l.
Proof. induction l as [|a l IH]; cbn; [done|]. by rewrite IH. Qed.

Lemma mapM_Ok_length {A B : Type} (f : A → result B) (l : list A) (r : list B) :
  mapM f l = Ok r → length r = length l.
Proof.
  revert r. induction l as [|a l IH]; intros r; cbn.
  - by intros [= <-].
  - destruct (f a) as [b|e]; cbn; [|done].
    destruct (mapM f l) as [r'|e]; cbn; [|done].
    intros [= <-]. cbn. by rewrite (IH r').
Qed.

Lemma mapM_total {A B : Type} (P : B → Prop) (f : A → result B) (l : list A) :
  (∀ a, a ∈ l → ∃ b, f a = Ok b ∧ P b) →
  ∃ r, mapM f l = Ok r ∧ Forall P r.
Proof.
  induction l as [|a l IH]; intros Hf; cbn; [eauto|].
  destruct (Hf a) as (b & -> & Hb); [left|]. cbn.
  destruct IH as (r & -> & Hr); [intros; apply Hf; by right|]. cbn. eauto.
Qed.

(** A loop that only appends to the array it builds. *)
Lemma foldl_append {A B : Type} (f : list A → B → list A) (g : B → list A)
    (l : list B) (acc : list A) :
  (∀ acc b, b ∈ l → f acc b = acc ++ g b) →
  foldl f acc l = acc ++ (l ≫= g).
Proof.
  revert acc. induction l as [|b l IH]; intros acc Hf; cbn.
  - by rewrite app_nil_r.
  - rewrite Hf by left. rewrite IH, <- app_assoc; [done|].
    intros acc' b' Hin. apply Hf. by right.
Qed.

Lemma foldl_invariant {A B : Type} (P : A → Prop) (f : A → B → A)
    (l : list B) (a : A) :
  P a → (∀ a b, P a → b ∈ l → P (f a b)) → P (foldl f a l).
Proof.
  revert a. induction l as [|b l IH]; intros a Ha Hf; cbn; [done|].
  apply IH; [apply Hf; [done | left]|].
  intros a' b' Ha' Hin. apply Hf; [done | by right].
Qed.

(** Every block has [c] elements. *)
Lemma length_bind_const {A B : Type} (g : B → list A) (l : list B) (c : nat) :
  (∀ b, b ∈ l → length (g b) = c) → length (l ≫= g) = (c * length l)%nat.
Proof.
  induction l as [|b l IH]; intros Hlen; cbn; [lia|].
  rewrite length_app, Hlen by left. rewrite IH; [lia|].
  intros b' Hin. apply Hlen. by right.
Qed.

(** Every block has [c] elements but the one at [x], which has none. *)
Lemma length_bind_except {A B : Type} (g : B → list A) (l : list B)
    (x : B) (c : nat) :
  NoDup l → x ∈ l →
  (∀ b, b ∈ l → b ≠ x → length (g b) = c) →
  length (g x) = 0%nat →
  length (l ≫= g) = (c * (length l - 1))%nat.
Proof.
  intros Hnd Hx Hc H0.
  induction Hnd as [|b l Hb Hnd IH]; [by apply elem_of_nil in Hx|].
  rewrite bind_cons, length_app. cbn [length].
  apply elem_of_cons in Hx as [<-|Hx].
  - rewrite H0. cbn. rewrite (length_bind_const g l c); [f_equal; lia|].
    intros b Hin. apply Hc; [by right|]. intros ->. done.
  - rewrite (Hc b); [|left|by intros ->].
    rewrite IH; [|done|].
    + destruct l as [|b0 l0]; [by apply elem_of_nil in Hx|]. cbn [length].
      replace (S (S (length l0)) - 1)%nat with (S (length l0)) by lia.
      replace (S (length l0) - 1)%nat with (length l0) by lia. lia.
    + intros b' Hin. apply Hc. by right.
Qed.

(** ** Rounding

    [binary_round] returns a mantissa and an exponent that are canonical for
    the format, so that storing a stored value again changes nothing. *)

Lemma digits2_pos_size (p : positive) : digits2_pos p = Pos.size p.
Proof. induction p; simpl; congruence. Qed.

Lemma Zdigits2_log2 (p : positive) :
  Zdigits2 (Zpos p) = Z.log2 (Zpos p) + 1.
Proof. simpl. rewrite digits2_pos_size. destruct p; simpl; lia. Qed.

Lemma Zdigits2_nonneg (m : Z) : 0 ≤ Zdigits2 m.
Proof. destruct m; simpl; lia. Qed.

Lemma Zdigits2_mono (a b : Z) : 0 ≤ a ≤ b → Zdigits2 a ≤ Zdigits2 b.
Proof.
  intros [Ha Hab]. destruct a as [|a|a]; [apply Zdigits2_nonneg| |lia].
  destruct b as [|b|b]; try lia.
  rewrite !Zdigits2_log2.
  pose proof (Z.log2_le_mono (Zpos a) (Zpos b) Hab). lia.
Qed.

Lemma Zdigits2_div2 (m : Z) :
  0 ≤ m → Zdigits2 (Z.div2 m) = Z.max 0 (Zdigits2 m - 1).
Proof.
  intros Hm. destruct m as [|[p|p|]|]; cbn -[Z.max Z.sub];
    rewrite ?Pos2Z.inj_succ; lia.
Qed.

(** One step of the shift halves the mantissa. *)
Lemma shr_1_m (mrs : shr_record) :
  0 ≤ shr_m mrs → shr_m (shr_1 mrs) = Z.div2 (shr_m mrs).
Proof.
  destruct mrs as [[|[p|p|]|p] r s]; simpl; intros; try lia; reflexivity.
Qed.

Lemma iter_pos_comm {A : Type} (f : A → A) (p : positive) (x : A) :
  SpecFloat.iter_pos f p (f x) = f (SpecFloat.iter_pos f p x).
Proof.
  revert x. induction p as [p IH|p IH|]; intros x; simpl;
    [|rewrite !IH|]; try reflexivity.
  rewrite !IH. reflexivity.
Qed.

Lemma iter_pos_succ {A : Type} (f : A → A) (p : positive) (x : A) :
  SpecFloat.iter_pos f (Pos.succ p) x = f (SpecFloat.iter_pos f p x).
Proof.
  revert x. induction p as [p IH|p IH|]; intros x; simpl.
  - rewrite !IH. rewrite !iter_pos_comm. reflexivity.
  - rewrite !iter_pos_comm. reflexivity.
  - reflexivity.
Qed.

(** [p] steps of the shift take [p] digits off the mantissa. *)
Lemma iter_shr_1_m (p : positive) (mrs : shr_record) :
  0 ≤ shr_m mrs →
  0 ≤ shr_m (SpecFloat.iter_pos shr_1 p mrs)
  ∧ Zdigits2 (shr_m (SpecFloat.iter_pos shr_1 p mrs))
    = Z.max 0 (Zdigits2 (shr_m mrs) - Zpos p).
Proof.
  intros Hm. induction p as [|p [IH0 IHd]] using Pos.peano_ind.
  - simpl. rewrite shr_1_m by assumption. split.
    + apply Z.div2_nonneg. assumption.
    + apply Zdigits2_div2. assumption.
  - rewrite iter_pos_succ, shr_1_m by assumption. split.
    + apply Z.div2_nonneg. assumption.
    + rewrite Zdigits2_div2, IHd by assumption. lia.
Qed.

Section Format.
Variables prec emax : Z.
Hypothesis Hprec : 0 < prec.

Abbreviation fexp := (fexp prec emax).
Abbreviation emin := (emin prec emax).

Lemma fexp_mono (a b : Z) : a ≤ b → fexp a ≤ fexp b.
Proof. unfold SpecFloat.fexp. lia. Qed.

Lemma fexp_ge_emin (a : Z) : emin ≤ fexp a.
Proof. unfold SpecFloat.fexp. lia. Qed.

Lemma shr_m_of_loc (m : Z) (l : location) :
  shr_m (shr_record_of_loc m l) = m.
Proof. destruct l as [|[]]; reflexivity. Qed.

(** The shift to the canonical exponent: the exponent it reaches, and the
    digits that are left. *)
Lemma shr_fexp_spec (m e : Z) (l : location) (mrs' : shr_record) (e' : Z) :
  0 ≤ m → e ≤ fexp (Zdigits2 m + e) →
  shr_fexp prec emax m e l = (mrs', e') →
  0 ≤ shr_m mrs'
  ∧ e' = fexp (Zdigits2 m + e)
  ∧ (0 < shr_m mrs' → Zdigits2 (shr_m mrs') + e' = Zdigits2 m + e)
  ∧ (shr_m mrs' = 0 → m ≠ 0 → e' = emin).
Proof.
  intros Hm He. unfold shr_fexp, shr.
  destruct (fexp (Zdigits2 m + e) - e) as [|p|p] eqn:Hn; try lia.
  - intros [= <- <-]. rewrite shr_m_of_loc. repeat split; try lia.
  - intros [= <- <-].
    destruct (iter_shr_1_m p (shr_record_of_loc m l)) as [H0 Hd];
      [rewrite shr_m_of_loc; assumption|].
    rewrite shr_m_of_loc in Hd.
    set (m' := shr_m (SpecFloat.iter_pos shr_1 p (shr_record_of_loc m l)))
      in *.
    repeat split; try lia.
    + intros Hpos. assert (0 < Zdigits2 m') by (destruct m'; simpl; lia).
      lia.
    + intros Hz Hne. rewrite Hz in Hd. simpl in Hd.
      unfold SpecFloat.fexp in *. lia.
Qed.

Lemma round_nearest_even_bounds (m : Z) (l : location) :
  m ≤ round_nearest_even m l ≤ m + 1.
Proof.
  destruct l as [|[]]; simpl; try lia. destruct (Z.even m); lia.
Qed.

(** What [binary_round_aux] returns, when finite, is bounded in the
    format: the mantissa is canonical and the exponent in range. *)
Lemma binary_round_aux_bounded (s : bool) (mx : positive) (ex : Z)
    (lx : location) (s' : bool) (m' : positive) (e' : Z) :
  ex ≤ fexp (Zdigits2 (Zpos mx) + ex) →
  binary_round_aux prec emax s (Zpos mx) ex lx = S754_finite s' m' e' →
  s' = s ∧ bounded prec emax m' e' = true.
Proof.
  intros He. unfold binary_round_aux.
  destruct (shr_fexp prec emax (Zpos mx) ex lx) as [mrs1 e1] eqn:H1.
  apply shr_fexp_spec in H1 as (Hm1 & He1 & Hd1 & Hz1); [|lia|assumption].
  set (M := round_nearest_even (shr_m mrs1) (loc_of_shr_record mrs1)).
  pose proof (round_nearest_even_bounds (shr_m mrs1)
                (loc_of_shr_record mrs1)) as HM.
  fold M in HM.
  destruct (shr_fexp prec emax M e1 loc_Exact) as [mrs2 e2] eqn:H2.
  assert (HMe : e1 ≤ fexp (Zdigits2 M + e1)).
  { destruct (Z.eq_dec (shr_m mrs1) 0) as [Hz|Hnz].
    - rewrite (Hz1 Hz) by lia. apply fexp_ge_emin.
    - assert (Hpos : 0 < shr_m mrs1) by lia.
      specialize (Hd1 Hpos).
      pose proof (Zdigits2_mono (shr_m mrs1) M ltac:(lia)).
      rewrite He1 at 1. rewrite <- Hd1. apply fexp_mono. lia. }
  apply shr_fexp_spec in H2 as (Hm2 & He2 & Hd2 & _); [|lia|assumption].
  destruct (shr_m mrs2) as [|m2|m2] eqn:Hm2e; try discriminate.
  destruct (e2 <=? emax - prec) eqn:Hle; try discriminate.
  intros [= <- <- <-]. split; [reflexivity|].
  unfold bounded, canonical_mantissa. rewrite Hle, andb_true_r.
  apply Z.eqb_eq. change (Zpos (digits2_pos m2)) with (Zdigits2 (Zpos m2)).
  rewrite Hd2 by lia. lia.
Qed.

Lemma digits2_pos_iter_xO (m d : positive) :
  Zpos (digits2_pos (Pos.iter xO m d)) = Zpos (digits2_pos m) + Zpos d.
Proof.
  induction d as [|d IH] using Pos.peano_ind.
  - simpl. lia.
  - rewrite Pos.iter_succ. simpl. lia.
Qed.

(** After the alignment the exponent is at most the canonical one. *)
Lemma shl_align_spec (mx : positive) (ex : Z) (mz : positive) (ez : Z) :
  shl_align mx ex (fexp (Zpos (digits2_pos mx) + ex)) = (mz, ez) →
  ez ≤ fexp (Zdigits2 (Zpos mz) + ez).
Proof.
  unfold shl_align.
  destruct (fexp (Zpos (digits2_pos mx) + ex) - ex) as [|d|d] eqn:Hd;
    intros Heq; apply pair_equal_spec in Heq as [<- <-];
    cbn [Zdigits2]; try lia.
  rewrite digits2_pos_iter_xO.
  apply Z.eq_le_incl. f_equal. lia.
Qed.

Lemma binary_round_bounded (s : bool) (mx : positive) (ex : Z)
    (s' : bool) (m' : positive) (e' : Z) :
  binary_round prec emax s mx ex = S754_finite s' m' e' →
  s' = s ∧ bounded prec emax m' e' = true.
Proof.
  unfold binary_round.
  destruct (shl_align mx ex (fexp (Zpos (digits2_pos mx) + ex)))
    as [mz ez] eqn:Hal.
  apply shl_align_spec in Hal. apply binary_round_aux_bounded. assumption.
Qed.

Lemma iter_shr_1_xO (m d : positive) :
  SpecFloat.iter_pos shr_1 d
    (Build_shr_record (Zpos (Pos.iter xO m d)) false false)
  = Build_shr_record (Zpos m) false false.
Proof.
  induction d as [|d IH] using Pos.peano_ind; [reflexivity|].
  rewrite iter_pos_succ, <- iter_pos_comm, Pos.iter_succ. exact IH.
Qed.

(** A mantissa that already has its canonical exponent is not rounded. *)
Lemma binary_round_aux_exact (s : bool) (mz : positive) (t : Z) :
  fexp (Zdigits2 (Zpos mz) + t) = t → t ≤ emax - prec →
  binary_round_aux prec emax s (Zpos mz) t loc_Exact = S754_finite s mz t.
Proof.
  intros Hc Ht. unfold binary_round_aux, shr_fexp.
  rewrite Hc, Z.sub_diag. cbn [shr shr_record_of_loc shr_m loc_of_shr_record
                               round_nearest_even].
  rewrite Hc, Z.sub_diag. cbn [shr shr_record_of_loc shr_m].
  rewrite (proj2 (Z.leb_le _ _)) by assumption. reflexivity.
Qed.

(** Trailing zeros are shifted out again. *)
Lemma binary_round_aux_shifted (s : bool) (m : positive) (e : Z)
    (d : positive) :
  bounded prec emax m e = true →
  binary_round_aux prec emax s (Zpos (Pos.iter xO m d)) (e - Zpos d) loc_Exact
  = S754_finite s m e.
Proof.
  unfold bounded, canonical_mantissa.
  intros [Hc He]%andb_prop. apply Z.eqb_eq in Hc. apply Z.leb_le in He.
  assert (Hdig : fexp (Zpos (digits2_pos (Pos.iter xO m d)) + (e - Zpos d))
                 = e).
  { rewrite digits2_pos_iter_xO. rewrite <- Hc at 2. f_equal. lia. }
  unfold binary_round_aux, shr_fexp. cbn [Zdigits2].
  rewrite Hdig. replace (e - (e - Zpos d)) with (Zpos d) by lia.
  cbn [shr shr_record_of_loc]. rewrite iter_shr_1_xO.
  cbn [shr_m loc_of_shr_record round_nearest_even Zdigits2].
  replace (e - Zpos d + Zpos d) with e by lia. rewrite Hc.
  rewrite Z.sub_diag. cbn [shr shr_record_of_loc shr_m].
  rewrite (proj2 (Z.leb_le _ _)) by assumption. reflexivity.
Qed.

Lemma binary_round_shifted (s : bool) (m : positive) (e : Z) (d : positive) :
  bounded prec emax m e = true →
  binary_round prec emax s (Pos.iter xO m d) (e - Zpos d) = S754_finite s m e.
Proof.
  intros Hb. pose proof Hb as [Hc He]%andb_prop.
  unfold canonical_mantissa in Hc. apply Z.eqb_eq in Hc.
  assert (Hdig : fexp (Zpos (digits2_pos (Pos.iter xO m d)) + (e - Zpos d))
                 = e).
  { rewrite digits2_pos_iter_xO. rewrite <- Hc at 2. f_equal. lia. }
  unfold binary_round, shl_align.
  rewrite Hdig. replace (e - (e - Zpos d)) with (Zpos d) by lia.
  by apply binary_round_aux_shifted.
Qed.
End Format.

(** Widening a binary32 value to binary64 appends zeros to the mantissa, up
    to 53 digits. *)
Lemma widen_exact (s : bool) (m : positive) (e : Z) :
  bounded 24 128 m e = true →
  ∃ d, binary_round 53 1024 s m e
       = S754_finite s (Pos.iter xO m d) (e - Zpos d)
       ∧ Zpos (digits2_pos m) + Zpos d = 53
       ∧ Zpos (digits2_pos m) + e ≤ 128.
Proof.
  unfold bounded, canonical_mantissa.
  intros [Hc He]%andb_prop. apply Z.eqb_eq in Hc. apply Z.leb_le in He.
  unfold fexp, emin in Hc.
  assert (Hdg : 0 < Zpos (digits2_pos m)) by lia.
  unfold binary_round, shl_align.
  destruct (fexp 53 1024 (Zpos (digits2_pos m) + e) - e) as [|d|d] eqn:Hd;
    try (unfold fexp, emin in Hd; lia).
  exists d.
  assert (Ht : fexp 53 1024 (Zpos (digits2_pos m) + e) = e - Zpos d) by lia.
  split; [|unfold fexp, emin in Hd; lia].
  rewrite Ht. apply binary_round_aux_exact.
  - cbn [Zdigits2]. rewrite digits2_pos_iter_xO.
    replace (Zpos (digits2_pos m) + Zpos d + (e - Zpos d))
      with (Zpos (digits2_pos m) + e) by lia.
    exact Ht.
  - lia.
Qed.

(** [Math.fround] is idempotent. *)
Lemma fround_idempotent (x : num) : fround (fround x) = fround x.
Proof.
  destruct x as [s|s| |s m e]; try reflexivity.
  change (fround (S754_finite s m e))
    with (match binary_round 24 128 s m e with
          | S754_finite s' m' e' => binary_round 53 1024 s' m' e'
          | y => y
          end).
  destruct (binary_round 24 128 s m e) as [s'|s'| |s' m' e'] eqn:Hr;
    try reflexivity.
  apply binary_round_bounded in Hr as [-> Hb]; [|done].
  destruct (widen_exact s m' e' Hb) as (d & Hw & _). rewrite Hw.
  unfold fround, prec32, emax32, prec64, emax64.
  rewrite (binary_round_shifted 24 128 s m' e' d Hb). exact Hw.
Qed.

(** ** Magnitudes: products and differences that cannot overflow *)

Lemma Zdigits2_succ (m : Z) : 0 ≤ m → Zdigits2 (m + 1) ≤ Zdigits2 m + 1.
Proof.
  intros Hm. destruct m as [|p|p]; [simpl; lia| |lia].
  replace (Zpos p + 1) with (Zpos (p + 1)) by lia.
  rewrite !Zdigits2_log2.
  pose proof (Z.log2_succ_le (Zpos p)). unfold Z.succ in *.
  replace (Zpos (p + 1)) with (Zpos p + 1) by lia. lia.
Qed.

Lemma Zdigits2_abs (z : Z) : Zdigits2 z = Zdigits2 (Z.abs z).
Proof. destruct z; reflexivity. Qed.

Lemma Zdigits2_double (m : Z) : 0 < m → Zdigits2 (2 * m) = Zdigits2 m + 1.
Proof.
  intros Hm. destruct m as [|p|p]; try lia.
  change (2 * Zpos p) with (Zpos p~0). cbn [Zdigits2 digits2_pos]. lia.
Qed.

Lemma Zdigits2_sum (z a b : Z) :
  0 < a → 0 < b → Z.abs z ≤ a + b →
  Zdigits2 z ≤ Z.max (Zdigits2 a) (Zdigits2 b) + 1.
Proof.
  intros Ha Hb Hz. rewrite Zdigits2_abs.
  pose proof (Zdigits2_mono (Z.abs z) (2 * Z.max a b) ltac:(lia)) as Hm.
  rewrite Zdigits2_double in Hm by lia.
  destruct (Z.max_spec a b) as [[? Hmax]|[? Hmax]]; rewrite Hmax in Hm; lia.
Qed.

Lemma Zdigits2_mul (a b : positive) :
  Zdigits2 (Zpos a) + Zdigits2 (Zpos b) - 1 ≤ Zdigits2 (Zpos (a * b))
  ∧ Zdigits2 (Zpos (a * b)) ≤ Zdigits2 (Zpos a) + Zdigits2 (Zpos b).
Proof.
  rewrite !Zdigits2_log2. rewrite Pos2Z.inj_mul.
  pose proof (Z.log2_mul_below (Zpos a) (Zpos b) ltac:(lia) ltac:(lia)).
  pose proof (Z.log2_mul_above (Zpos a) (Zpos b) ltac:(lia) ltac:(lia)).
  lia.
Qed.

Section Magnitude.
Variables prec emax : Z.
Hypothesis Hprec : 0 < prec.

(** Rounding a mantissa of magnitude below [2^(B-1)] does not overflow when
    the format reaches [2^B]. *)
Lemma binary_round_aux_below (s : bool) (mx : positive) (ex : Z)
    (lx : location) (B : Z) :
  ex ≤ fexp prec emax (Zdigits2 (Zpos mx) + ex) →
  Zdigits2 (Zpos mx) + ex + 1 ≤ B →
  1 + emin prec emax ≤ B →
  fexp prec emax B ≤ emax - prec →
  finite_below B (binary_round_aux prec emax s (Zpos mx) ex lx).
Proof.
  intros He HB Hmin Hmax. unfold binary_round_aux.
  destruct (shr_fexp prec emax (Zpos mx) ex lx) as [mrs1 e1] eqn:H1.
  apply shr_fexp_spec in H1 as (Hm1 & He1 & Hd1 & Hz1);
    [|assumption|lia|assumption].
  set (M := round_nearest_even (shr_m mrs1) (loc_of_shr_record mrs1)).
  pose proof (round_nearest_even_bounds (shr_m mrs1)
                (loc_of_shr_record mrs1)) as HM.
  fold M in HM.
  destruct (shr_fexp prec emax M e1 loc_Exact) as [mrs2 e2] eqn:H2.
  assert (HMB : Zdigits2 M + e1 ≤ B).
  { destruct (Z.eq_dec (shr_m mrs1) 0) as [Hz|Hnz].
    - rewrite (Hz1 Hz) by lia.
      pose proof (Zdigits2_mono M 1 ltac:(lia)) as H. simpl in H. lia.
    - assert (Hpos : 0 < shr_m mrs1) by lia.
      specialize (Hd1 Hpos).
      pose proof (Zdigits2_mono M (shr_m mrs1 + 1) ltac:(lia)).
      pose proof (Zdigits2_succ (shr_m mrs1) ltac:(lia)). lia. }
  assert (HMe : e1 ≤ fexp prec emax (Zdigits2 M + e1)).
  { destruct (Z.eq_dec (shr_m mrs1) 0) as [Hz|Hnz].
    - rewrite (Hz1 Hz) by lia. apply fexp_ge_emin.
    - assert (Hpos : 0 < shr_m mrs1) by lia.
      specialize (Hd1 Hpos).
      pose proof (Zdigits2_mono (shr_m mrs1) M ltac:(lia)).
      rewrite He1 at 1. rewrite <- Hd1. apply fexp_mono. lia. }
  apply shr_fexp_spec in H2 as (Hm2 & He2 & Hd2 & _);
    [|assumption|lia|assumption].
  pose proof (fexp_mono prec emax _ _ HMB) as Hfe.
  destruct (shr_m mrs2) as [|m2|m2] eqn:Hm2e; [exact I| |lia].
  rewrite (proj2 (Z.leb_le e2 (emax - prec))) by lia.
  cbn [finite_below]. change (Zpos (digits2_pos m2)) with (Zdigits2 (Zpos m2)).
  rewrite Hd2 by lia. lia.
Qed.

(** The alignment keeps the magnitude. *)
Lemma shl_align_digits (mx : positive) (ex ex' : Z) (mz : positive) (ez : Z) :
  shl_align mx ex ex' = (mz, ez) →
  Zpos (digits2_pos mz) + ez = Zpos (digits2_pos mx) + ex.
Proof.
  unfold shl_align.
  destruct (ex' - ex) as [|d|d] eqn:Hd;
    intros Heq; apply pair_equal_spec in Heq as [<- <-]; try reflexivity.
  rewrite digits2_pos_iter_xO. lia.
Qed.

Lemma binary_round_below (s : bool) (mx : positive) (ex B : Z) :
  Zpos (digits2_pos mx) + ex + 1 ≤ B →
  1 + emin prec emax ≤ B →
  fexp prec emax B ≤ emax - prec →
  finite_below B (binary_round prec emax s mx ex).
Proof.
  intros HB Hmin Hmax. unfold binary_round.
  destruct (shl_align mx ex (fexp prec emax (Zpos (digits2_pos mx) + ex)))
    as [mz ez] eqn:Hal.
  pose proof (shl_align_digits _ _ _ _ _ Hal) as Hdg.
  apply shl_align_spec in Hal.
  apply binary_round_aux_below; try assumption. cbn [Zdigits2]. lia.
Qed.

(** The difference of two numbers below [2^B] is below [2^(B+2)]. *)
Lemma SFsub_below (B : Z) (x y : spec_float) :
  finite_below B x → finite_below B y →
  1 + emin prec emax ≤ B + 2 →
  fexp prec emax (B + 2) ≤ emax - prec →
  finite_below (B + 2) (SFsub prec emax x y).
Proof.
  intros Hx Hy Hmin Hmax.
  destruct x as [sx|sx| |sx mx ex], y as [sy|sy| |sy my ey];
    cbn [finite_below] in Hx, Hy; try contradiction.
  - destruct sx, sy; exact I.
  - cbn [SFsub finite_below]. lia.
  - cbn [SFsub finite_below]. lia.
  - cbn [SFsub]. unfold binary_normalize.
    set (ez := Z.min ex ey).
    destruct (shl_align mx ex ez) as [mx' ex'] eqn:Hax.
    destruct (shl_align my ey ez) as [my' ey'] eqn:Hay.
    pose proof (shl_align_digits _ _ _ _ _ Hax) as Hdx.
    pose proof (shl_align_digits _ _ _ _ _ Hay) as Hdy.
    assert (Hex' : ex' = ez).
    { unfold shl_align in Hax. destruct (ez - ex) eqn:Hd;
        apply pair_equal_spec in Hax as [_ <-]; lia. }
    assert (Hey' : ey' = ez).
    { unfold shl_align in Hay. destruct (ez - ey) eqn:Hd;
        apply pair_equal_spec in Hay as [_ <-]; lia. }
    subst ex' ey'. cbn [fst].
    set (diff := cond_Zopp sx (Zpos mx') - cond_Zopp sy (Zpos my')).
    pose proof (Zdigits2_sum diff (Zpos mx') (Zpos my')
                  ltac:(lia) ltac:(lia)) as Hs.
    assert (Habs : Z.abs diff ≤ Zpos mx' + Zpos my')
      by (unfold diff, cond_Zopp; destruct sx, sy; lia).
    specialize (Hs Habs). cbn [Zdigits2] in Hs.
    destruct diff as [|md|md] eqn:Hdiff; [exact I| |];
      apply binary_round_below; try assumption; cbn [Zdigits2] in Hs; lia.
Qed.

(** The product of two normal numbers below [2^Bx] and [2^By] is below
    [2^(Bx+By+1)]. *)
Lemma SFmul_below (Bx By : Z) (x y : spec_float) :
  normal_below prec Bx x → normal_below prec By y →
  1 + emin prec emax ≤ Bx + By + 1 →
  fexp prec emax (Bx + By + 1) ≤ emax - prec →
  finite_below (Bx + By + 1) (SFmul prec emax x y).
Proof.
  intros Hx Hy Hmin Hmax.
  destruct x as [sx|sx| |sx mx ex], y as [sy|sy| |sy my ey];
    try contradiction; try exact I.
  destruct Hx as [Hdx Hbx], Hy as [Hdy Hby]. cbn [SFmul].
  pose proof (Zdigits2_mul mx my) as [Hlo Hhi]. cbn [Zdigits2] in Hlo, Hhi.
  apply binary_round_aux_below; try assumption; cbn [Zdigits2].
  - unfold fexp. lia.
  - lia.
Qed.
End Magnitude.

(** A finite binary32 value, read as a number: a zero, or 53 digits and a
    magnitude below [2^128]. *)
Lemma float32_form (v : num) :
  fround v = v → is_finite v = true → normal_below 53 128 v.
Proof.
  destruct v as [s|s| |s m e]; try discriminate; [done|]. intros Hv _.
  change (fround (S754_finite s m e))
    with (match binary_round 24 128 s m e with
          | S754_finite s' m' e' => binary_round 53 1024 s' m' e'
          | y => y
          end) in Hv.
  destruct (binary_round 24 128 s m e) as [s'|s'| |s' m' e'] eqn:Hr;
    try discriminate.
  apply binary_round_bounded in Hr as [-> Hb]; [|done].
  destruct (widen_exact s m' e' Hb) as (d & Hw & Hd & Hm).
  rewrite Hw in Hv. injection Hv as <- <-. cbn [normal_below].
  rewrite digits2_pos_iter_xO. lia.
Qed.

(** A stored value is a canonical binary64 number. *)
Lemma float32_canonical (s : bool) (m : positive) (e : Z) :
  fround (S754_finite s m e) = S754_finite s m e →
  bounded 53 1024 m e = true.
Proof.
  intros Hv.
  change (fround (S754_finite s m e))
    with (match binary_round 24 128 s m e with
          | S754_finite s' m' e' => binary_round 53 1024 s' m' e'
          | y => y
          end) in Hv.
  destruct (binary_round 24 128 s m e) as [s'|s'| |s' m' e'] eqn:Hr;
    try discriminate.
  by apply binary_round_bounded in Hv as [_ Hb].
Qed.

(** [1 * s] is [s]. *)
Lemma mul_one_exact (s : bool) (m : positive) (e : Z) :
  bounded 53 1024 m e = true →
  mul (of_Z 1) (S754_finite s m e) = S754_finite s m e.
Proof.
  intros Hb.
  change (mul (of_Z 1) (S754_finite s m e))
    with (binary_round_aux 53 1024 s (Zpos (Pos.iter xO m 52)) (-52 + e)
            loc_Exact).
  replace (-52 + e) with (e - 52) by lia.
  by apply binary_round_aux_shifted.
Qed.

(** A finite binary32 scalar is stored in the scaled identity as it is. *)
Lemma stored_scalar_exact (s : num) :
  fround s = s → is_finite s = true → stored_scalar s = s.
Proof.
  intros Hs Hfin. unfold stored_scalar.
  change (fround (of_Z 1)) with (of_Z 1).
  destruct s as [[]| | |b m e]; try discriminate Hfin; try reflexivity.
  rewrite (mul_one_exact b m e (float32_canonical b m e Hs)).
  by rewrite !Hs.
Qed.

(** [ad − bc] on finite binary32 values is a finite number. *)
Lemma ad_minus_bc_finite (a b c d : num) :
  fround a = a -> fround b = b -> fround c = c -> fround d = d ->
  is_finite a = true -> is_finite b = true ->
  is_finite c = true -> is_finite d = true ->
  is_finite (sub (mul a d) (mul b c)) = true.
Proof.
  intros Ha Hb Hc Hd Fa Fb Fc Fd.
  pose proof (float32_form a Ha Fa) as Ga.
  pose proof (float32_form b Hb Fb) as Gb.
  pose proof (float32_form c Hc Fc) as Gc.
  pose proof (float32_form d Hd Fd) as Gd.
  assert (Had : finite_below 257 (mul a d)).
  { apply (SFmul_below 53 1024 ltac:(done) 128 128 a d);
      [exact Ga | exact Gd | vm_compute; discriminate..]. }
  assert (Hbc : finite_below 257 (mul b c)).
  { apply (SFmul_below 53 1024 ltac:(done) 128 128 b c);
      [exact Gb | exact Gc | vm_compute; discriminate..]. }
  pose proof (SFsub_below 53 1024 ltac:(done) 257 _ _ Had Hbc) as Hsub.
  unfold sub, prec64, emax64.
  destruct (SFsub 53 1024 (mul a d) (mul b c)); try done;
    exfalso; apply Hsub; vm_compute; discriminate.
Qed.

(** ** The constructor *)

Lemma length_Float32Array_from (a : jsarray) :
  length (Float32Array_from a) = length a.
Proof. unfold Float32Array_from. by rewrite length_fmap. Qed.

Lemma new_Ok (ys xs : Z) (vals : jsarray) :
  Z.of_nat (length vals) = ys * xs →
  new ys xs vals = Ok (Matrix.mk (Float32Array_from vals) ys xs).
Proof.
  intros Hlen. unfold new. cbn [values].
  rewrite length_Float32Array_from, Hlen, Z.ltb_irrefl. done.
Qed.

Lemma new_inv (ys xs : Z) (vals : jsarray) (m : Matrix.t) :
  new ys xs vals = Ok m →
  m = Matrix.mk (Float32Array_from vals) ys xs
  ∧ Z.of_nat (length vals) = ys * xs.
Proof.
  unfold new. cbn [values]. rewrite length_Float32Array_from.
  destruct (Z.ltb_spec (Z.of_nat (length vals)) (ys * xs)); [done|].
  destruct (Z.ltb_spec (ys * xs) (Z.of_nat (length vals))); [done|].
  intros [= <-]. split; [done|lia].
Qed.

(** What the constructor returns holds binary32 values. *)
Lemma new_float32_valued (ys xs : Z) (vals : list (option num)) (m : Matrix.t) :
  new ys xs vals = Ok m → float32_valued m.
Proof.
  intros [-> _]%new_inv. unfold float32_valued, Float32Array_from.
  cbn [values]. apply Forall_fmap, Forall_true. intros v. cbn.
  apply fround_idempotent.
Qed.

(** ** Determinant of a receiver that is not square *)

(** C8: on a matrix with [rowCount ≠ colCount], [determinant()] throws the
    "is not square" error and returns no value. *)
Theorem determinant_not_square (m : Matrix.t) :
  xSize m ≠ ySize m → determinant m = Throw NotSquare.
Proof.
  intros Hne. unfold determinant.
  destruct (Z.to_nat (xSize m)); cbn [determinant_rec];
    by rewrite (proj2 (Z.eqb_neq _ _) Hne).
Qed.

Lemma determinant_not_square_witness :
  xSize m32 ≠ ySize m32 ∧ determinant m32 = Throw NotSquare.
Proof.
  assert (Hne : xSize m32 ≠ ySize m32) by discriminate.
  split; [exact Hne | exact (determinant_not_square m32 Hne)].
Defined.

(** ** 1×1 receivers *)

Lemma valid_1x1 (m : Matrix.t) :
  valid m → square 1 m → ∃ v, m = Matrix.mk [v] 1 1.
Proof.
  destruct m as [vals ys xs]. intros (_ & _ & Hlen) [Hy Hx].
  cbn in *. subst. destruct vals as [|v [|??]]; cbn in Hlen; try lia.
  by exists v.
Qed.

(** C5, as the code has it: the determinant of a 1×1 matrix whose element is
    finite is [0] whatever the element, and [inverse()] then throws the
    "has no inverse matrix" error. *)
Theorem determinant_1x1_finite (m : Matrix.t) :
  valid m → square 1 m → finite_valued m →
  determinant m = Ok zero ∧ inverse m = Throw NoInverse.
Proof.
  intros Hv Hsq Hfin. destruct (valid_1x1 m Hv Hsq) as [v ->].
  apply Forall_cons_1 in Hfin as [Hfin _].
  assert (Hdet : determinant (Matrix.mk [v] 1 1) = Ok zero).
  { destruct v as [[]|[]| |[] mv ev]; try discriminate Hfin;
      vm_compute; reflexivity. }
  split; [exact Hdet|]. unfold inverse. rewrite Hdet. reflexivity.
Qed.

Lemma determinant_1x1_finite_witness :
  valid m11 ∧ square 1 m11 ∧ finite_valued m11
  ∧ determinant m11 = Ok zero ∧ inverse m11 = Throw NoInverse.
Proof.
  assert (Hv : valid m11) by (repeat split; vm_compute; congruence).
  assert (Hs : square 1 m11) by (split; reflexivity).
  assert (Hf : finite_valued m11) by (repeat constructor).
  split; [exact Hv|]. split; [exact Hs|]. split; [exact Hf|].
  exact (determinant_1x1_finite m11 Hv Hs Hf).
Defined.

(** C5 as stated fails where the element is not finite: [matrix(1,1)(1e39)]
    stores [Infinity], its determinant is [Infinity * 0 = NaN], and
    [inverse()] returns a matrix instead of throwing. *)
Lemma determinant_1x1_huge :
  Matrix.matrix 1 1 [huge] = Ok m11_huge
  ∧ determinant m11_huge = Ok NaN
  ∧ inverse m11_huge = Ok (Matrix.mk [NaN] 1 1)
  ∧ determinant m11_huge ≠ Ok zero
  ∧ inverse m11_huge ≠ Throw NoInverse.
Proof.
  split; [vm_compute; reflexivity|]. split; [vm_compute; reflexivity|].
  split; [vm_compute; reflexivity|]. split; vm_compute; discriminate.
Qed.

(** C3, as the code has it: on a 1×1 matrix [minor(row, col)] returns the
    0×0 matrix when [row] or [col] is [0] (so at the only position there is)
    and throws "too many values" otherwise; on the 0×0 matrix it throws
    "not enough values". *)
Theorem minor_1x1_degenerate (m : Matrix.t) (y x : Z) :
  valid m →
  (square 1 m →
     minor m y x
     = if (x =? 0) || (y =? 0) then Ok m00 else Throw TooManyValues)
  ∧ (square 0 m → minor m y x = Throw NotEnoughValues).
Proof.
  intros Hv. split; intros Hsq.
  - destruct (valid_1x1 m Hv Hsq) as [v ->].
    unfold minor. cbn [ySize xSize values].
    change (seqZ 0 1) with [0]. cbn [foldl].
    change (Z.rem (0 * 1 + 0) 1) with 0. change ((0 * 1 + 0) `div` 1) with 0.
    destruct x as [|x|x], y as [|y|y]; reflexivity.
  - destruct m as [vals ys xs]. destruct Hv as (_ & _ & Hlen), Hsq as [Hy Hx].
    cbn in *. subst. destruct vals; [|cbn in Hlen; lia]. reflexivity.
Qed.

Lemma minor_1x1_degenerate_witness :
  valid m11 ∧ square 1 m11 ∧ minor m11 0 0 = Ok m00.
Proof.
  assert (Hv : valid m11) by (repeat split; vm_compute; congruence).
  assert (Hs : square 1 m11) by (split; reflexivity).
  split; [exact Hv|]. split; [exact Hs|].
  exact (proj1 (minor_1x1_degenerate m11 0 0 Hv) Hs).
Defined.

(** C3 as stated fails: [matrix(1,1)(5).minor(0,0)] does not throw, and the
    matrix it returns has no row and no column. *)
Lemma minor_1x1_returns_0x0 :
  Matrix.matrix 1 1 (ofZs [5]) = Ok m11
  ∧ minor m11 0 0 = Ok m00
  ∧ ¬ (1 ≤ ySize m00 ∧ 1 ≤ xSize m00).
Proof.
  split; [vm_compute; reflexivity|]. split; [vm_compute; reflexivity|].
  intros [H _]. vm_compute in H. congruence.
Qed.

(** ** The inverse of a 2×2 and of a 4×4 matrix *)

(** C2 at [matrix(2,2)(1,2,3,4)], whose determinant is [-2]: [inverse()]
    returns zeros, and [inverse().multiply(m)] is not [identity(2)]. *)
Theorem inverse_2x2_not_inverse :
  determinant m22 = Ok (of_Z (-2))
  ∧ inverse m22
    = Ok (Matrix.mk [S754_zero true; zero; S754_zero true; zero] 2 2)
  ∧ identity 2 = Ok identity2
  ∧ ∃ p, (i ← inverse m22; multiply i (Mat m22)) = Ok p
         ∧ all_zero p ∧ Matrix.eq p identity2 = false.
Proof.
  split; [vm_compute; reflexivity|].
  split; [vm_compute; reflexivity|].
  split; [vm_compute; reflexivity|].
  eexists. split; [vm_compute; reflexivity|].
  split; [repeat constructor | vm_compute; reflexivity].
Qed.

(** The same at [identity(4)]: the sign by flattened index negates the
    second and the fourth row of the adjugate. *)
Lemma inverse_identity4_not_inverse :
  identity 4 = Ok identity4
  ∧ determinant identity4 = Ok (of_Z 1)
  ∧ ∃ p, (i ← inverse identity4; multiply i (Mat identity4)) = Ok p
         ∧ get p 1 1 = Some (of_Z (-1))
         ∧ Matrix.eq p identity4 = false.
Proof.
  split; [vm_compute; reflexivity|].
  split; [vm_compute; reflexivity|].
  eexists. split; [vm_compute; reflexivity|].
  split; vm_compute; reflexivity.
Qed.

(** On the 3×3 matrix of the tests the round trip holds. *)
Lemma inverse_minvertable_round_trip :
  ∃ p i3, (i ← inverse minvertable; multiply i (Mat minvertable)) = Ok p
          ∧ identity 3 = Ok i3 ∧ Matrix.eq p i3 = true.
Proof.
  do 2 eexists. split; [vm_compute; reflexivity|].
  split; vm_compute; reflexivity.
Qed.

(** ** Minors *)

Lemma source_index (xs iy ix : Z) :
  0 ≤ iy → 0 ≤ ix < xs →
  Z.rem (iy * xs + ix) xs = ix ∧ (iy * xs + ix) `div` xs = iy.
Proof.
  intros Hiy Hix. rewrite Z.rem_mod_nonneg by nia. split.
  - rewrite Z.add_comm, Z_mod_plus_full. by apply Z.mod_small.
  - rewrite Z.add_comm, Z_div_plus_full by lia.
    rewrite Z.div_small by done. lia.
Qed.

(** The loops of [minor] collect the rows other than [y] and the columns
    other than [x]. *)
Lemma minor_eq (m : Matrix.t) (y x : Z) :
  minor m y x = new (ySize m - 1) (xSize m - 1) (minor_values m y x).
Proof.
  unfold minor, minor_values. f_equal.
  change (seqZ 0 (ySize m) ≫= ?g) with ([] ++ (seqZ 0 (ySize m) ≫= g)).
  apply (foldl_append _ (λ iy, ix ← seqZ 0 (xSize m);
           if negb (ix =? x) && negb (iy =? y) then [get m iy ix] else [])).
  intros acc iy Hiy. apply elem_of_seqZ in Hiy.
  apply foldl_append. intros acc' ix Hix. apply elem_of_seqZ in Hix.
  cbn zeta. destruct (source_index (xSize m) iy ix) as [-> ->]; [lia..|].
  destruct (negb (ix =? x) && negb (iy =? y)); [done|].
  by rewrite app_nil_r.
Qed.

Lemma bind_all_nil {A B : Type} (g : B → list A) (l : list B) :
  (∀ b, b ∈ l → g b = []) → l ≫= g = [].
Proof.
  induction l as [|b l IH]; intros Hg; [done|].
  rewrite bind_cons, Hg by left. apply IH. intros b' Hin. apply Hg. by right.
Qed.

Lemma length_minor_values (m : Matrix.t) (y x : Z) :
  0 ≤ y < ySize m → 0 ≤ x < xSize m →
  Z.of_nat (length (minor_values m y x)) = (ySize m - 1) * (xSize m - 1).
Proof.
  intros Hy Hx. unfold minor_values.
  rewrite (length_bind_except _ _ y (Z.to_nat (xSize m - 1))).
  - rewrite length_seqZ. nia.
  - apply NoDup_seqZ.
  - apply elem_of_seqZ. lia.
  - intros iy _ Hne.
    rewrite (length_bind_except _ _ x 1%nat).
    + rewrite length_seqZ. lia.
    + apply NoDup_seqZ.
    + apply elem_of_seqZ. lia.
    + intros ix _ Hnx.
      by rewrite (proj2 (Z.eqb_neq ix x) Hnx), (proj2 (Z.eqb_neq iy y) Hne).
    + by rewrite Z.eqb_refl.
  - rewrite bind_all_nil; [done|]. intros ix _.
    by rewrite Z.eqb_refl, andb_false_r.
Qed.

(** Inside the matrix, [minor] cannot fail, and what it returns is one row
    and one column smaller. *)
Lemma minor_valid (m : Matrix.t) (y x : Z) :
  valid m → 0 ≤ y < ySize m → 0 ≤ x < xSize m →
  ∃ mi, minor m y x = Ok mi ∧ valid mi
        ∧ ySize mi = ySize m - 1 ∧ xSize mi = xSize m - 1
        ∧ values mi = Float32Array_from (minor_values m y x).
Proof.
  intros Hv Hy Hx. rewrite minor_eq.
  pose proof (length_minor_values m y x Hy Hx) as Hlen.
  rewrite new_Ok by done. eexists. split; [done|].
  repeat split; cbn; try lia. by rewrite length_Float32Array_from.
Qed.

Lemma minor_sizes (m mi : Matrix.t) (y x : Z) :
  minor m y x = Ok mi → ySize mi = ySize m - 1 ∧ xSize mi = xSize m - 1.
Proof. unfold minor. intros [-> _]%new_inv. done. Qed.

(** ** Determinant *)

(** The body of [determinant], with the recursive calls as calls of
    [determinant] itself: the recursion budget plays no part. *)
Lemma determinant_unfold (m : Matrix.t) :
  determinant m =
    if negb (xSize m =? ySize m) then Throw NotSquare
    else if (xSize m =? 2) && (ySize m =? 2) then
      Ok (sub (mul (to_number (get m 0 0)) (to_number (get m 1 1)))
              (mul (to_number (get m 0 1)) (to_number (get m 1 0))))
    else
      foldlM (λ sum x,
        mi ← minor m 0 x;
        d ← determinant mi;
        Ok (add sum (mul (mul (to_number (typed_get (values m) x)) d)
                         (pow_neg1 x))))
        zero (seqZ 0 (xSize m)).
Proof.
  unfold determinant at 1.
  destruct (Z.to_nat (xSize m)) as [|n] eqn:Hn; cbn [determinant_rec];
    destruct (negb (xSize m =? ySize m)); try done;
    destruct ((xSize m =? 2) && (ySize m =? 2)); try done.
  - rewrite seqZ_nil by lia. done.
  - apply foldlM_ext. intros sum x _.
    destruct (minor m 0 x) as [mi|e] eqn:Hmi; cbn; [|done].
    apply minor_sizes in Hmi as [_ Hxs]. unfold determinant.
    replace (Z.to_nat (xSize mi)) with n by lia. done.
Qed.

(** On a square matrix [determinant] returns a number: it neither throws nor
    runs out of stack. *)
Lemma determinant_total (m : Matrix.t) :
  valid m → xSize m = ySize m → ∃ d, determinant m = Ok d.
Proof.
  remember (Z.to_nat (xSize m)) as n eqn:Hn. revert m Hn.
  induction n as [|n IH]; intros m Hn Hv Hsq; rewrite determinant_unfold;
    rewrite Hsq, Z.eqb_refl; cbn [negb];
    destruct ((ySize m =? 2) && (ySize m =? 2)); eauto.
  - destruct Hv as (? & ? & _). rewrite seqZ_nil by lia. cbn. eauto.
  - destruct (foldlM_total (λ _, True)
      (λ sum x, mi ← minor m 0 x; d ← determinant mi;
         Ok (add sum (mul (mul (to_number (typed_get (values m) x)) d)
                          (pow_neg1 x))))
      zero (seqZ 0 (ySize m))) as (r & Hr & _); [done| |eauto].
    intros sum x _ Hin%elem_of_seqZ.
    destruct (minor_valid m 0 x) as (mi & -> & Hvi & Hyi & Hxi & _);
      [done|lia..|]. cbn.
    destruct (IH mi) as [d ->]; [lia|done|lia|]. cbn. eauto.
Qed.

(** The loop of [determinant] is the cofactor expansion along the first
    row. *)
Lemma determinant_loop_expansion (m : Matrix.t) :
  foldlM (λ sum x,
    mi ← minor m 0 x;
    d ← determinant mi;
    Ok (add sum (mul (mul (to_number (typed_get (values m) x)) d)
                     (pow_neg1 x))))
    zero (seqZ 0 (xSize m))
  = cofactor_expansion m.
Proof.
  unfold cofactor_expansion. rewrite <- foldlM_sum.
  apply foldlM_ext. intros sum x _.
  destruct (minor m 0 x) as [mi|e]; cbn; [|done].
  by destruct (determinant mi).
Qed.

(** C7: for a square n×n matrix with [n ≥ 2], [determinant()] is [ad − bc]
    when [n = 2] and the cofactor expansion along the first row otherwise,
    and it does return a number; the determinant of
    [matrix(3,3)(1,5,3,2,4,7,4,6,2)] is [74]. *)
Theorem determinant_cofactor_expansion (m : Matrix.t) (n : Z) :
  valid m → square n m → 2 ≤ n →
  (n = 2 → determinant m = Ok (ad_minus_bc m))
  ∧ (n ≠ 2 → determinant m = cofactor_expansion m)
  ∧ (∃ d, determinant m = Ok d)
  ∧ Matrix.matrix 3 3 (ofZs [1; 5; 3; 2; 4; 7; 4; 6; 2]) = Ok m33_det74
  ∧ determinant m33_det74 = Ok (of_Z 74).
Proof.
  intros Hv [Hy Hx] Hn. split; [|split; [|split; [|split]]].
  - intros ->. rewrite determinant_unfold, Hx, Hy. done.
  - intros Hne. rewrite determinant_unfold, Hx, Hy, Z.eqb_refl.
    rewrite (proj2 (Z.eqb_neq n 2) Hne). cbn [negb andb].
    rewrite <- Hx. apply determinant_loop_expansion.
  - apply determinant_total; [done | lia].
  - vm_compute. reflexivity.
  - vm_compute. reflexivity.
Qed.

Lemma determinant_cofactor_expansion_witness :
  valid m33_det74 ∧ square 3 m33_det74 ∧ 2 ≤ 3
  ∧ determinant m33_det74 = cofactor_expansion m33_det74.
Proof.
  assert (Hv : valid m33_det74) by (repeat split; vm_compute; congruence).
  assert (Hs : square 3 m33_det74) by (split; reflexivity).
  assert (Hn : 2 ≤ 3) by lia.
  split; [exact Hv|]. split; [exact Hs|]. split; [exact Hn|].
  refine (proj1 (proj2 (determinant_cofactor_expansion m33_det74 3 Hv Hs Hn)) _).
  discriminate.
Defined.

(** ** The minors in row-major order *)

Lemma seqZ_rows (ys xs : Z) :
  0 ≤ ys → 0 ≤ xs →
  seqZ 0 (ys * xs) = seqZ 0 ys ≫= λ y, (λ x, y * xs + x) <$> seqZ 0 xs.
Proof.
  intros Hys Hxs. rewrite <- (Z2Nat.id ys) by done.
  induction (Z.to_nat ys) as [|n IH]; [done|].
  rewrite seqZ_S, bind_app, <- IH. cbn.
  replace (Z.of_nat (S n) * xs) with (Z.of_nat n * xs + xs) by lia.
  rewrite seqZ_app by lia. f_equal. cbn. rewrite app_nil_r.
  replace (0 + Z.of_nat n * xs) with (Z.of_nat n * xs + 0) by lia.
  rewrite <- fmap_add_seqZ. apply list_fmap_ext. intros; lia.
Qed.

Lemma mapM_bind {A B C : Type} (f : B → result C) (g : A → list B) (l : list A) :
  mapM f (l ≫= g) = rs ← mapM (λ a, mapM f (g a)) l; Ok (concat rs).
Proof.
  induction l as [|a l IH]; [done|].
  rewrite bind_cons, mapM_app, IH. cbn.
  destruct (mapM f (g a)) as [r1|e]; cbn; [|done].
  by destruct (mapM (λ a, mapM f (g a)) l).
Qed.

Lemma foldlM_push_all {A B : Type} (f : B → result (list A)) (l : list B)
    (acc : list A) :
  foldlM (λ res x, r ← f x; Ok (res ++ r)) acc l
  = rs ← mapM f l; Ok (acc ++ concat rs).
Proof.
  revert acc. induction l as [|b l IH]; intros acc; cbn.
  - by rewrite app_nil_r.
  - destruct (f b) as [r|e]; cbn; [|done]. rewrite IH.
    destruct (mapM f l) as [rs|e]; cbn; [|done]. by rewrite <- app_assoc.
Qed.

(** [minors()] lists [minor(k div xSize, k mod xSize)] for the flattened
    indices [k = 0, 1, ...] in turn. *)
Lemma minors_flat (m : Matrix.t) :
  0 ≤ ySize m → 0 ≤ xSize m →
  minors m = mapM (minor_at m) (seqZ 0 (ySize m * xSize m)).
Proof.
  intros Hys Hxs. unfold minors.
  rewrite seqZ_rows, mapM_bind by done.
  rewrite (foldlM_ext _ (λ res y,
             r ← mapM (minor m y) (seqZ 0 (xSize m)); Ok (res ++ r)));
    [|intros res y _; apply foldlM_push].
  rewrite foldlM_push_all. cbn.
  erewrite (mapM_ext_in (λ y, mapM (minor_at m) _)); [reflexivity|].
  intros y Hy%elem_of_seqZ. cbn. rewrite mapM_fmap.
  apply mapM_ext_in. intros x Hx%elem_of_seqZ. cbn. unfold minor_at.
  rewrite Z.add_comm, Z_div_plus_full, Z_mod_plus_full by lia.
  rewrite Z.div_small, Z.mod_small by lia. f_equal; lia.
Qed.

(** The callback of [adjugate]: the determinants first, then each times
    [(−1)] raised to its index in the array. *)
Lemma mapiM_sign (ms : list Matrix.t) :
  mapiM (λ minor ix, d ← determinant minor; Ok (mul d (pow_neg1 ix))) ms
  = ds ← mapM determinant ms;
    Ok (zip_with (λ d k, mul d (pow_neg1 k)) ds (seqZ 0 (Z.of_nat (length ds)))).
Proof.
  unfold mapiM. generalize 0 as k.
  induction ms as [|mi ms IH]; intros k; [done|].
  rewrite seqZ_cons by (cbn; lia).
  replace (Z.pred (Z.of_nat (length (mi :: ms)))) with (Z.of_nat (length ms))
    by (cbn [length]; lia).
  cbn. destruct (determinant mi) as [d|e]; cbn; [|done].
  rewrite IH. destruct (mapM determinant ms) as [ds|e]; cbn; [|done].
  rewrite (seqZ_cons k) by lia.
  replace (Z.pred (Z.of_nat (S (length ds)))) with (Z.of_nat (length ds)) by lia.
  done.
Qed.

(** ** Arrays filled in place *)

Lemma array_get_middle (pre post : jsarray) (old : jsval) :
  array_get (pre ++ old :: post) (Z.of_nat (length pre)) = old.
Proof.
  unfold array_get. rewrite (proj2 (Z.ltb_ge _ _)) by lia.
  rewrite Nat2Z.id, list_lookup_middle by done. done.
Qed.

Lemma array_set_middle (pre post : jsarray) (old v : jsval) :
  array_set (pre ++ old :: post) (Z.of_nat (length pre)) v = pre ++ v :: post.
Proof.
  unfold array_set. rewrite (proj2 (Z.ltb_ge _ _)) by lia.
  rewrite (proj2 (Z.ltb_lt _ _)) by (rewrite length_app; cbn; lia).
  rewrite Nat2Z.id, insert_app_r_alt, Nat.sub_diag by done. done.
Qed.

(** [a[i] += t(z)] for every [z]: the sum of the terms lands in [a[i]]. *)
Lemma add_assign_loop (t : Z → num) (l : list Z) (pre post : jsarray) (s0 : num) :
  foldl (λ r z, array_add_assign r (Z.of_nat (length pre)) (t z))
        (pre ++ Some s0 :: post) l
  = pre ++ Some (foldl (λ s z, add s (t z)) s0 l) :: post.
Proof.
  revert s0. induction l as [|z l IH]; intros s0; cbn; [done|].
  unfold array_add_assign at 2.
  rewrite array_get_middle, array_set_middle. apply IH.
Qed.

(** A loop whose round [k] overwrites the [k]-th block of [c] fresh cells. *)
Lemma foldl_fill_blocks {A B : Type} (F : list A → B → list A)
    (g : B → list A) (c : nat) (z : A) (l : list B) (pre rest : list A) :
  (∀ b, b ∈ l → length (g b) = c) →
  (∀ k b pre' post, l !! k = Some b →
     length pre' = (length pre + c * k)%nat →
     F (pre' ++ replicate c z ++ post) b = pre' ++ g b ++ post) →
  foldl F (pre ++ replicate (c * length l) z ++ rest) l
  = pre ++ (l ≫= g) ++ rest.
Proof.
  revert pre. induction l as [|b l IH]; intros pre Hlen HF.
  - cbn. by rewrite Nat.mul_0_r.
  - cbn [foldl length]. rewrite Nat.mul_succ_r, Nat.add_comm, replicate_add.
    rewrite <- (app_assoc (replicate c z)).
    rewrite (HF 0%nat b pre) by (done || lia).
    rewrite bind_cons, <- (app_assoc (g b)), !(app_assoc pre (g b)).
    apply IH.
    + intros b' Hin. apply Hlen. by right.
    + intros k b' pre' post Hk Hpre'. apply (HF (S k)); [done|].
      rewrite Hpre', length_app, Hlen by left. lia.
Qed.

(** ** The product *)

Lemma multiply_loop (a b : Matrix.t) :
  0 ≤ ySize a → 0 ≤ xSize b →
  foldl (λ result y,
    foldl (λ result x,
      foldl (λ result z,
        array_add_assign result (x + y * xSize b)
          (mul (to_number (get a y z)) (to_number (get b z x))))
        result (seqZ 0 (xSize a)))
      result (seqZ 0 (xSize b)))
    (replicate (Z.to_nat (ySize a * xSize b)) (Some zero)) (seqZ 0 (ySize a))
  = product_values a b.
Proof.
  intros Hya Hxb. unfold product_values.
  pose proof (foldl_fill_blocks
    (λ result y, foldl (λ result x, foldl (λ result z,
       array_add_assign result (x + y * xSize b)
         (mul (to_number (get a y z)) (to_number (get b z x))))
       result (seqZ 0 (xSize a))) result (seqZ 0 (xSize b)))
    (λ y, x ← seqZ 0 (xSize b); [Some (product_entry a b y x)])
    (Z.to_nat (xSize b)) (Some zero) (seqZ 0 (ySize a)) [] []) as Hfill.
  rewrite !app_nil_r in Hfill. cbn [app] in Hfill.
  rewrite length_seqZ in Hfill.
  replace (Z.to_nat (ySize a * xSize b))
    with (Z.to_nat (xSize b) * Z.to_nat (ySize a))%nat by nia.
  apply Hfill; clear Hfill.
  - intros y _. rewrite <- (length_seqZ 0 (xSize b)).
    induction (seqZ 0 (xSize b)) as [|x l IH]; [done|].
    rewrite bind_cons, length_app, IH. done.
  - intros ky y pre post [-> Hky]%lookup_seqZ Hpre. cbn [length] in Hpre.
    pose proof (foldl_fill_blocks
      (λ result x, foldl (λ result z,
         array_add_assign result (x + (0 + Z.of_nat ky) * xSize b)
           (mul (to_number (get a (0 + Z.of_nat ky) z)) (to_number (get b z x))))
         result (seqZ 0 (xSize a)))
      (λ x, [Some (product_entry a b (0 + Z.of_nat ky) x)])
      1%nat (Some zero) (seqZ 0 (xSize b)) pre post) as Hrow.
    rewrite length_seqZ, Nat.mul_1_l in Hrow. apply Hrow; clear Hrow; [done|].
    intros kx x pre' post' [-> Hkx]%lookup_seqZ Hpre'.
    replace (0 + Z.of_nat kx + (0 + Z.of_nat ky) * xSize b)
      with (Z.of_nat (length pre')) by nia.
    cbn [replicate app]. apply add_assign_loop.
Qed.

Lemma length_product_values (a b : Matrix.t) :
  0 ≤ ySize a → 0 ≤ xSize b →
  Z.of_nat (length (product_values a b)) = ySize a * xSize b.
Proof.
  intros Hya Hxb. unfold product_values.
  rewrite (length_bind_const _ _ (Z.to_nat (xSize b))).
  - rewrite length_seqZ. nia.
  - intros y _. rewrite (length_bind_const _ _ 1%nat) by done.
    rewrite length_seqZ. lia.
Qed.

(** [a.multiply(b)] for a matrix [b]: no comparison of [a.xSize] with
    [b.ySize] is made; the result has [a.ySize] rows and [b.xSize] columns. *)
Lemma multiply_Mat (a b : Matrix.t) :
  0 ≤ ySize a → 0 ≤ xSize b →
  multiply a (Mat b)
  = Ok (Matrix.mk (Float32Array_from (product_values a b)) (ySize a) (xSize b)).
Proof.
  intros Hya Hxb. unfold multiply. cbn [mbind result_bind].
  unfold Array_new. rewrite (proj2 (Z.ltb_ge _ _)) by nia.
  cbn [mbind result_bind]. unfold fill. rewrite length_replicate.
  rewrite multiply_loop by done. apply new_Ok.
  by apply length_product_values.
Qed.

(** C1, as the code has it: with [a.colCount ≠ b.rowCount], and a result
    of [a.rowCount * b.colCount] elements that an [Array] can hold,
    [a.multiply(b)] does not throw; it returns a matrix of [a.rowCount]
    rows and [b.colCount] columns, whose entry [(y, x)] is the sum over
    [z < a.colCount] of [a(y,z) * b(z,x)], a missing [b(z,x)] counting as
    [NaN].  The one error that is left, for a result an [Array] cannot
    hold, is the RangeError of [new Array], not a comparison of the
    dimensions. *)
Theorem multiply_mismatch_returns (a b : Matrix.t) :
  valid a → valid b → xSize a ≠ ySize b →
  ySize a * xSize b ≤ max_array_length →
  ∃ r, multiply a (Mat b) = Ok r
       ∧ ySize r = ySize a ∧ xSize r = xSize b ∧ valid r
       ∧ values r = Float32Array_from (product_values a b).
Proof.
  intros (Hya & _ & _) (_ & Hxb & _) _ _.
  rewrite multiply_Mat by done. eexists. split; [done|].
  repeat split; cbn; try done.
  rewrite length_Float32Array_from. by apply length_product_values.
Qed.

Lemma multiply_mismatch_returns_witness :
  valid m12 ∧ valid m11 ∧ xSize m12 ≠ ySize m11
  ∧ ySize m12 * xSize m11 ≤ max_array_length
  ∧ ∃ r, multiply m12 (Mat m11) = Ok r
         ∧ ySize r = ySize m12 ∧ xSize r = xSize m11 ∧ valid r
         ∧ values r = Float32Array_from (product_values m12 m11).
Proof.
  assert (Ha : valid m12) by (repeat split; vm_compute; congruence).
  assert (Hb : valid m11) by (repeat split; vm_compute; congruence).
  assert (Hne : xSize m12 ≠ ySize m11) by discriminate.
  assert (Hn : ySize m12 * xSize m11 ≤ max_array_length)
    by (vm_compute; congruence).
  split; [exact Ha|]. split; [exact Hb|]. split; [exact Hne|].
  split; [exact Hn|].
  exact (multiply_mismatch_returns m12 m11 Ha Hb Hne Hn).
Defined.

(** C1 as stated fails: [matrix(1,2)(1,2).multiply(matrix(1,1)(5))] returns a
    1×1 matrix. *)
Lemma multiply_mismatch_no_error :
  Matrix.matrix 1 2 (ofZs [1; 2]) = Ok m12
  ∧ Matrix.matrix 1 1 (ofZs [5]) = Ok m11
  ∧ xSize m12 ≠ ySize m11
  ∧ multiply m12 (Mat m11) = Ok (Matrix.mk [NaN] 1 1)
  ∧ ∀ e, multiply m12 (Mat m11) ≠ Throw e.
Proof.
  split; [vm_compute; reflexivity|]. split; [vm_compute; reflexivity|].
  split; [discriminate|]. split; [vm_compute; reflexivity|].
  intros e. vm_compute. discriminate.
Qed.

(** ** Row-major arrays *)

Lemma bind_singleton {A B : Type} (f : A → B) (l : list A) :
  l ≫= (λ x, [f x]) = f <$> l.
Proof. induction l as [|a l IH]; [done|]. by rewrite bind_cons, IH. Qed.

Lemma flat_index (xs y x : Z) :
  0 ≤ x < xs → (y * xs + x) `div` xs = y ∧ (y * xs + x) `mod` xs = x.
Proof.
  intros Hx. rewrite Z.add_comm, Z_div_plus_full, Z_mod_plus_full by lia.
  rewrite Z.div_small, Z.mod_small by lia. done.
Qed.

Lemma seqZ_split (n k : Z) :
  0 ≤ k < n → seqZ 0 n = seqZ 0 k ++ k :: seqZ (k + 1) (n - k - 1).
Proof.
  intros Hk. replace n with (k + (1 + (n - k - 1))) at 1 by lia.
  rewrite !seqZ_app, Z.add_0_l by lia.
  rewrite (seqZ_cons k 1), (seqZ_nil (Z.succ k)) by lia. done.
Qed.

(** An array written row after row, as a function of the flattened index. *)
Lemma row_major_fmap {A : Type} (h : Z → Z → A) (ys xs : Z) :
  0 ≤ ys → 0 ≤ xs →
  (y ← seqZ 0 ys; x ← seqZ 0 xs; [h y x])
  = (λ k, h (k `div` xs) (k `mod` xs)) <$> seqZ 0 (ys * xs).
Proof.
  intros Hys Hxs. rewrite seqZ_rows by done.
  induction (seqZ 0 ys) as [|y l IH]; [done|].
  rewrite !bind_cons, fmap_app, <- IH. f_equal.
  rewrite bind_singleton, <- list_fmap_compose.
  apply list_fmap_ext. intros i x [-> Hi]%lookup_seqZ. cbn.
  by destruct (flat_index xs y (0 + Z.of_nat i)) as [-> ->]; [lia|].
Qed.

Lemma lookup_row_major {A : Type} (h : Z → Z → A) (ys xs y x : Z) :
  0 ≤ y < ys → 0 ≤ x < xs →
  (y ← seqZ 0 ys; x ← seqZ 0 xs; [h y x]) !! Z.to_nat (y * xs + x)
  = Some (h y x).
Proof.
  intros Hy Hx. rewrite row_major_fmap by lia.
  rewrite list_lookup_fmap, lookup_seqZ_lt by nia.
  cbn. rewrite Z2Nat.id, Z.add_0_l by nia.
  by destruct (flat_index xs y x) as [-> ->].
Qed.

(** ** The identity and its multiples *)

Lemma identity_loop (n : Z) :
  0 ≤ n →
  foldl (λ values i, array_set values (i * n + i) (Some (of_Z 1)))
        (replicate (Z.to_nat (n * n)) (Some zero)) (seqZ 0 n)
  = identity_values n.
Proof.
  intros Hn. unfold identity_values.
  pose proof (foldl_fill_blocks
    (λ values i, array_set values (i * n + i) (Some (of_Z 1)))
    (λ y, x ← seqZ 0 n; [Some (if y =? x then of_Z 1 else zero)])
    (Z.to_nat n) (Some zero) (seqZ 0 n) [] []) as Hfill.
  rewrite !app_nil_r in Hfill. cbn [app] in Hfill.
  rewrite length_seqZ in Hfill.
  replace (Z.to_nat (n * n)) with (Z.to_nat n * Z.to_nat n)%nat by nia.
  apply Hfill; clear Hfill.
  - intros y _. rewrite (length_bind_const _ _ 1%nat) by done.
    rewrite length_seqZ. lia.
  - intros k i pre post [-> Hk]%lookup_seqZ Hpre. cbn [length] in Hpre.
    rewrite bind_singleton.
    replace (Z.to_nat n) with (k + S (Z.to_nat n - k - 1))%nat at 1 by lia.
    rewrite replicate_add. cbn [replicate].
    rewrite <- !app_assoc, app_assoc. cbn [app].
    replace ((0 + Z.of_nat k) * n + (0 + Z.of_nat k))
      with (Z.of_nat (length (pre ++ replicate k (Some zero))))
      by (rewrite length_app, length_replicate; nia).
    rewrite array_set_middle, <- app_assoc. f_equal.
    rewrite (seqZ_split n (Z.of_nat k)), Z.add_0_l by lia.
    rewrite fmap_app, <- app_assoc. f_equal.
    + rewrite (const_fmap _ _ (Some zero)), length_seqZ, Nat2Z.id; [done|].
      intros j x [-> Hj]%lookup_seqZ.
      by rewrite (proj2 (Z.eqb_neq _ _)) by lia.
    + cbn [fmap list_fmap app]. rewrite Z.eqb_refl. f_equal. f_equal.
      rewrite (const_fmap _ _ (Some zero)), length_seqZ.
      * f_equal. lia.
      * intros j x [-> Hj]%lookup_seqZ.
        by rewrite (proj2 (Z.eqb_neq _ _)) by lia.
Qed.

Lemma length_identity_values (n : Z) :
  0 ≤ n → Z.of_nat (length (identity_values n)) = n * n.
Proof.
  intros Hn. unfold identity_values.
  rewrite (length_bind_const _ _ (Z.to_nat n)).
  - rewrite length_seqZ. nia.
  - intros y _. rewrite (length_bind_const _ _ 1%nat) by done.
    rewrite length_seqZ. lia.
Qed.

Lemma identity_Ok (n : Z) :
  0 ≤ n →
  identity n = Ok (Matrix.mk (Float32Array_from (identity_values n)) n n).
Proof.
  intros Hn. unfold identity, Array_new.
  rewrite (proj2 (Z.ltb_ge _ _)) by nia. cbn [mbind result_bind].
  unfold fill. rewrite length_replicate, identity_loop by done.
  apply new_Ok. by apply length_identity_values.
Qed.

(** The multiplier built for a number: [ŝ] on the diagonal, the stored
    [0 * s] elsewhere. *)
Lemma scaled_identity_Ok (n : Z) (s : num) :
  0 ≤ n →
  scaled_identity n s
  = Ok (Matrix.mk
          ((λ k, if k `div` n =? k `mod` n then stored_scalar s
                 else stored_zero s) <$> seqZ 0 (n * n)) n n).
Proof.
  intros Hn. unfold scaled_identity. rewrite identity_Ok by done.
  cbn [mbind result_bind]. unfold map. cbn [values ySize xSize].
  rewrite new_Ok.
  - f_equal. f_equal. unfold typed_to_array, typed_map, Float32Array_from.
    unfold identity_values. rewrite row_major_fmap by done.
    rewrite <- !list_fmap_compose. apply list_fmap_ext.
    intros i k _. cbn. unfold stored_scalar, stored_zero.
    by destruct (k `div` n =? k `mod` n).
  - unfold typed_to_array, typed_map.
    rewrite !length_fmap, length_Float32Array_from.
    by apply length_identity_values.
Qed.

Lemma get_scaled_identity (n : Z) (s : num) (z x : Z) :
  0 ≤ z < n → 0 ≤ x < n →
  get (Matrix.mk
         ((λ k, if k `div` n =? k `mod` n then stored_scalar s
                else stored_zero s) <$> seqZ 0 (n * n)) n n) z x
  = Some (if z =? x then stored_scalar s else stored_zero s).
Proof.
  intros Hz Hx. unfold get, typed_get. cbn [values xSize].
  rewrite (proj2 (Z.ltb_ge _ _)) by nia.
  rewrite list_lookup_fmap, lookup_seqZ_lt by nia. cbn.
  rewrite Z2Nat.id, Z.add_0_l by nia.
  by destruct (flat_index n z x) as [-> ->].
Qed.

(** ** Sums in which all terms but one are zeros *)

Lemma add_zero_absorbs (t : num) (s : bool) :
  add (add zero t) (S754_zero s) = add zero t.
Proof. by destruct t as [[]|[]| |[] mt et], s. Qed.

Lemma add_zero_zero (s : bool) : add zero (S754_zero s) = zero.
Proof. by destruct s. Qed.

Lemma mul_finite_zero (v k : num) :
  is_finite v = true → is_zero k = true → is_zero (mul v k) = true.
Proof. by destruct v as [| | |], k as [| | |]. Qed.

Lemma stored_zero_is_zero (s : num) :
  is_finite s = true → is_zero (stored_zero s) = true.
Proof. by destruct s as [| | |]. Qed.

Lemma sum_zero_terms (t : Z → num) (l : list Z) (acc : num) :
  (∀ s, add acc (S754_zero s) = acc) →
  (∀ z, z ∈ l → is_zero (t z) = true) →
  foldl (λ sum z, add sum (t z)) acc l = acc.
Proof.
  intros Hacc. induction l as [|z l IH]; intros Ht; cbn; [done|].
  destruct (t z) as [s| | |] eqn:Htz;
    try (specialize (Ht z ltac:(left)); rewrite Htz in Ht; discriminate Ht).
  rewrite Hacc. apply IH. intros z' Hin. apply Ht. by right.
Qed.

(** The entry of a product by the scaled identity: all terms but the one on
    the diagonal are zeros. *)
Lemma product_entry_diagonal (a K : Matrix.t) (y x : Z) (k1 k0 v : num) :
  0 ≤ x < xSize a →
  (∀ z, 0 ≤ z < xSize a → ∃ vz, get a y z = Some vz ∧ is_finite vz = true) →
  (∀ z, 0 ≤ z < xSize a → get K z x = Some (if z =? x then k1 else k0)) →
  is_zero k0 = true →
  get a y x = Some v →
  product_entry a K y x = add zero (mul v k1).
Proof.
  intros Hx Ha HK Hk0 Hv. unfold product_entry.
  rewrite (seqZ_split (xSize a) x) by done.
  rewrite foldl_app. cbn [foldl].
  assert (Hterm : ∀ z, 0 ≤ z < xSize a → z ≠ x →
            is_zero (mul (to_number (get a y z)) (to_number (get K z x))) = true).
  { intros z Hz Hne. destruct (Ha z Hz) as (vz & -> & Hfin).
    rewrite (HK z Hz), (proj2 (Z.eqb_neq z x) Hne). cbn.
    by apply mul_finite_zero. }
  rewrite (sum_zero_terms _ (seqZ 0 x) zero).
  - rewrite Hv, (HK x Hx), Z.eqb_refl. cbn [to_number default].
    apply sum_zero_terms; [apply add_zero_absorbs|].
    intros z Hz%elem_of_seqZ. apply Hterm; lia.
  - apply add_zero_zero.
  - intros z Hz%elem_of_seqZ. apply Hterm; lia.
Qed.

(** ** Multiplication by a number *)

Lemma valid_get (m : Matrix.t) (y x : Z) :
  valid m → 0 ≤ y < ySize m → 0 ≤ x < xSize m →
  ∃ v, get m y x = Some v
       ∧ values m !! Z.to_nat (y * xSize m + x) = Some v.
Proof.
  intros (_ & _ & Hlen) Hy Hx. unfold get, typed_get.
  rewrite (proj2 (Z.ltb_ge _ _)) by nia.
  destruct (lookup_lt_is_Some_2 (values m) (Z.to_nat (y * xSize m + x)))
    as [v Hv]; [nia|]. eauto.
Qed.

(** C10, as the code has it: where an [Array] can hold the identity of
    [m.colCount] rows and the result, [m.multiply(s)] is the product of [m]
    with the identity scaled by [s], of the dimensions of [m]; where the
    elements of [m] and [s] are finite, every element [v] becomes the
    stored [0 + v * ŝ], [ŝ] being [s] as the scaled identity stores it,
    which is [s] itself when [s] is a binary32 value. *)
Theorem multiply_number (m : Matrix.t) (s : num) :
  valid m →
  xSize m * xSize m ≤ max_array_length →
  ySize m * xSize m ≤ max_array_length →
  multiply m (Number s)
  = (k ← scaled_identity (xSize m) s; multiply m (Mat k))
  ∧ ∃ r, multiply m (Number s) = Ok r
         ∧ ySize r = ySize m ∧ xSize r = xSize m
         ∧ (finite_valued m → is_finite s = true →
            values r = scaled (stored_scalar s) <$> values m
            ∧ (fround s = s → stored_scalar s = s)).
Proof.
  intros Hv _ _. pose proof Hv as (Hys & Hxs & Hlen).
  split; [reflexivity|].
  change (multiply m (Number s))
    with (k ← scaled_identity (xSize m) s; multiply m (Mat k)).
  rewrite scaled_identity_Ok by done. cbn [mbind result_bind].
  set (K := Matrix.mk _ (xSize m) (xSize m)).
  rewrite multiply_Mat by done. eexists. split; [done|].
  cbn [ySize xSize values]. split; [done|]. split; [done|].
  intros Hfin Hs.
  split; [|intros Hs32; by apply stored_scalar_exact].
  apply list_eq. intros i.
  rewrite list_lookup_fmap.
  destruct (decide (i < length (values m))%nat) as [Hi|Hi].
  - destruct (lookup_lt_is_Some_2 (values m) i Hi) as [v Hvi].
    rewrite Hvi. cbn [fmap option_fmap option_map].
    unfold Float32Array_from, product_values.
    rewrite row_major_fmap, <- list_fmap_compose by done.
    cbn [K xSize].
    assert (Hi' : Z.of_nat i < ySize m * xSize m) by (rewrite <- Hlen; lia).
    rewrite list_lookup_fmap, lookup_seqZ_lt by done.
    cbn. unfold scaled. do 2 f_equal. rewrite Z.add_0_l.
    assert (Hxpos : 0 < xSize m) by nia.
    assert (Hx : 0 ≤ Z.of_nat i `mod` xSize m < xSize m)
      by (by apply Z.mod_pos_bound).
    assert (Hy : 0 ≤ Z.of_nat i `div` xSize m < ySize m).
    { split; [apply Z.div_pos; lia|].
      apply Z.div_lt_upper_bound; lia. }
    assert (Hix : Z.of_nat i `div` xSize m * xSize m + Z.of_nat i `mod` xSize m
                  = Z.of_nat i).
    { pose proof (Z.div_mod (Z.of_nat i) (xSize m)). lia. }
    apply (product_entry_diagonal m K _ _ _ (stored_zero s)).
    + done.
    + intros z Hz. destruct (valid_get m _ z Hv Hy Hz) as (vz & Hg & Hl).
      exists vz. split; [done|].
      exact (Forall_lookup_1 _ _ _ _ Hfin Hl).
    + intros z Hz. by apply get_scaled_identity.
    + by apply stored_zero_is_zero.
    + unfold get, typed_get. rewrite Hix.
      rewrite (proj2 (Z.ltb_ge _ _)) by lia. by rewrite Nat2Z.id.
  - rewrite (lookup_ge_None_2 (values m)) by lia. cbn.
    apply lookup_ge_None_2. rewrite length_Float32Array_from.
    pose proof (length_product_values m K Hys Hxs) as HlenK.
    cbn [K xSize] in HlenK. lia.
Qed.

Lemma multiply_number_witness :
  valid m32
  ∧ xSize m32 * xSize m32 ≤ max_array_length
  ∧ ySize m32 * xSize m32 ≤ max_array_length
  ∧ finite_valued m32 ∧ is_finite (of_Z 2) = true
  ∧ fround (of_Z 2) = of_Z 2
  ∧ ∃ r, multiply m32 (Number (of_Z 2)) = Ok r
         ∧ ySize r = ySize m32 ∧ xSize r = xSize m32
         ∧ values r = scaled (stored_scalar (of_Z 2)) <$> values m32
         ∧ stored_scalar (of_Z 2) = of_Z 2.
Proof.
  assert (Hv : valid m32) by (repeat split; vm_compute; congruence).
  assert (Hf : finite_valued m32) by (repeat constructor).
  assert (Hs : is_finite (of_Z 2) = true) by reflexivity.
  assert (Hs32 : fround (of_Z 2) = of_Z 2) by reflexivity.
  assert (H1 : xSize m32 * xSize m32 ≤ max_array_length)
    by (vm_compute; congruence).
  assert (H2 : ySize m32 * xSize m32 ≤ max_array_length)
    by (vm_compute; congruence).
  split; [exact Hv|]. split; [exact H1|]. split; [exact H2|].
  split; [exact Hf|]. split; [exact Hs|]. split; [exact Hs32|].
  destruct (proj2 (multiply_number m32 (of_Z 2) Hv H1 H2))
    as (r & Hr & Hy & Hx & Hvals).
  exists r. split; [exact Hr|]. split; [exact Hy|]. split; [exact Hx|].
  destruct (Hvals Hf Hs) as [Hscaled Hstored].
  split; [exact Hscaled | exact (Hstored Hs32)].
Defined.

(** The test: [m32.multiply(2)] is [matrix(3,2)(2,4,6,8,10,12)]. *)
Lemma multiply_m32_by_2 :
  multiply m32 (Number (of_Z 2))
  = Ok (Matrix.mk (ofZs [2; 4; 6; 8; 10; 12]) 3 2).
Proof. vm_compute. reflexivity. Qed.

(** C10 as stated fails: in [matrix(1,2)(1e39,1).multiply(2)] the second
    element, [1], scaled by [2] is [2]; the code returns [NaN] there, the
    first element being stored as [Infinity] and the sum for the second
    place holding [Infinity * 0]. *)
Lemma multiply_number_not_scaled :
  Matrix.matrix 1 2 [huge; of_Z 1] = Ok m12_huge_one
  ∧ xSize m12_huge_one * xSize m12_huge_one ≤ max_array_length
  ∧ ySize m12_huge_one * xSize m12_huge_one ≤ max_array_length
  ∧ multiply m12_huge_one (Number (of_Z 2))
    = Ok (Matrix.mk [Infinity; NaN] 1 2)
  ∧ get m12_huge_one 0 1 = Some (of_Z 1)
  ∧ fround (of_Z 2) = of_Z 2
  ∧ fround (mul (of_Z 1) (of_Z 2)) = of_Z 2
  ∧ get (Matrix.mk [Infinity; NaN] 1 2) 0 1
    ≠ Some (fround (mul (of_Z 1) (of_Z 2))).
Proof.
  split; [vm_compute; reflexivity|]. split; [vm_compute; congruence|].
  split; [vm_compute; congruence|]. split; [vm_compute; reflexivity|].
  split; [vm_compute; reflexivity|]. split; [vm_compute; reflexivity|].
  split; [vm_compute; reflexivity|].
  vm_compute. discriminate.
Qed.

(** ** Rotation *)

(** The loops of [rotate] push the columns one after the other, each from
    the last row to the first. *)
Lemma rotate_eq (m : Matrix.t) :
  rotate m = new (xSize m) (ySize m) (rotated m).
Proof.
  unfold rotate, rotated. f_equal.
  change (seqZ 0 (xSize m) ≫= ?g) with ([] ++ (seqZ 0 (xSize m) ≫= g)).
  apply (foldl_append _ (λ x, y ← reverse (seqZ 0 (ySize m)); [get m y x])).
  intros acc x _. by apply foldl_append.
Qed.

Lemma reverse_seqZ (n : Z) :
  reverse (seqZ 0 n) = (λ j, n - 1 - j) <$> seqZ 0 n.
Proof.
  destruct (Z.le_gt_cases 0 n) as [Hn|Hn]; [|by rewrite !seqZ_nil by lia].
  rewrite <- (Z2Nat.id n) by done.
  induction (Z.to_nat n) as [|k IH]; [done|].
  rewrite seqZ_S at 1. rewrite reverse_snoc, IH.
  rewrite (seqZ_cons 0 (Z.of_nat (S k))) by lia. cbn [fmap list_fmap].
  f_equal; [lia|].
  replace (Z.pred (Z.of_nat (S k))) with (Z.of_nat k) by lia.
  replace (Z.succ 0) with (1 + 0) by lia.
  rewrite <- fmap_add_seqZ, <- list_fmap_compose.
  apply list_fmap_ext. intros i j _. cbn. lia.
Qed.

(** The rotated array, row after row of the result. *)
Lemma rotated_row_major (m : Matrix.t) :
  rotated m
  = (x ← seqZ 0 (xSize m); j ← seqZ 0 (ySize m);
     [get m (ySize m - 1 - j) x]).
Proof.
  unfold rotated. apply list_bind_ext; [|done]. intros x.
  by rewrite reverse_seqZ, list_fmap_bind.
Qed.

Lemma length_rotated (m : Matrix.t) :
  0 ≤ ySize m → 0 ≤ xSize m →
  Z.of_nat (length (rotated m)) = xSize m * ySize m.
Proof.
  intros Hys Hxs. unfold rotated.
  rewrite (length_bind_const _ _ (Z.to_nat (ySize m))).
  - rewrite length_seqZ. nia.
  - intros x _. rewrite (length_bind_const _ _ 1%nat) by done.
    rewrite length_reverse, length_seqZ. lia.
Qed.

(** Storing numbers that come from a [Float32Array] leaves them as they
    are. *)
Lemma Float32Array_from_stored (a : list (option num)) :
  Forall (λ o, ∃ v, o = Some v ∧ fround v = v) a →
  Some <$> Float32Array_from a = a.
Proof.
  induction 1 as [|o a (v & -> & Hv) _ IH]; [done|].
  cbn. rewrite Hv. f_equal. exact IH.
Qed.

Lemma rotated_stored (m : Matrix.t) :
  valid m → float32_valued m →
  Forall (λ o, ∃ v, o = Some v ∧ fround v = v) (rotated m).
Proof.
  intros Hv Hf. apply Forall_forall. intros o.
  unfold rotated. intros (x & (y & Ho & Hy)%list_elem_of_bind
                            & Hx)%list_elem_of_bind.
  apply list_elem_of_singleton in Ho as ->.
  apply elem_of_reverse, elem_of_seqZ in Hy. apply elem_of_seqZ in Hx.
  destruct (valid_get m y x Hv) as (v & Hg & Hl); [lia..|].
  exists v. split; [done|]. exact (Forall_lookup_1 _ _ _ _ Hf Hl).
Qed.

(** C9: [rotate()] returns a matrix of [sourceColCount] rows and
    [sourceRowCount] columns whose flat values are, column after column of
    the source, the elements of that column from the last row to the first,
    so that entry [(x, j)] of the result is entry [(ySize − 1 − j, x)] of
    the source; [matrix(3,2)(1,2,3,4,5,6).rotate()] is
    [matrix(2,3)(5,3,1,6,4,2)]. *)
Theorem rotate_clockwise (m : Matrix.t) :
  valid m → float32_valued m →
  (∃ r, rotate m = Ok r
        ∧ ySize r = xSize m ∧ xSize r = ySize m
        ∧ Some <$> values r = rotated m
        ∧ ∀ x j, 0 ≤ x < xSize m → 0 ≤ j < ySize m →
                 get r x j = get m (ySize m - 1 - j) x)
  ∧ Matrix.matrix 3 2 (ofZs [1; 2; 3; 4; 5; 6]) = Ok m32
  ∧ Matrix.matrix 2 3 (ofZs [5; 3; 1; 6; 4; 2]) = Ok m23_rotated
  ∧ rotate m32 = Ok m23_rotated.
Proof.
  intros Hv Hf. pose proof Hv as (Hys & Hxs & Hlen).
  split; [|split; [|split]]; try (vm_compute; reflexivity).
  rewrite rotate_eq, new_Ok by (by apply length_rotated).
  eexists. split; [done|]. cbn [ySize xSize values].
  pose proof (Float32Array_from_stored _ (rotated_stored m Hv Hf)) as Hvals.
  split; [done|]. split; [done|]. split; [done|].
  intros x j Hx Hj. unfold get at 1, typed_get. cbn [values xSize].
  rewrite (proj2 (Z.ltb_ge _ _)) by nia.
  pose proof (lookup_row_major (λ x j, get m (ySize m - 1 - j) x)
                (xSize m) (ySize m) x j Hx Hj) as Hl.
  cbv beta in Hl.
  rewrite <- rotated_row_major, <- Hvals, list_lookup_fmap in Hl.
  destruct (Float32Array_from (rotated m) !! _) as [v|]; [|done].
  cbn in Hl. by injection Hl as <-.
Qed.

Lemma rotate_clockwise_witness :
  valid m32 ∧ float32_valued m32
  ∧ ∃ r, rotate m32 = Ok r
         ∧ ySize r = xSize m32 ∧ xSize r = ySize m32
         ∧ Some <$> values r = rotated m32
         ∧ ∀ x j, 0 ≤ x < xSize m32 → 0 ≤ j < ySize m32 →
                  get r x j = get m32 (ySize m32 - 1 - j) x.
Proof.
  assert (Hv : valid m32) by (repeat split; vm_compute; congruence).
  assert (Hf : float32_valued m32) by (repeat constructor).
  split; [exact Hv|]. split; [exact Hf|].
  exact (proj1 (rotate_clockwise m32 Hv Hf)).
Defined.

(** ** 2×2 receivers *)

Lemma valid_2x2 (m : Matrix.t) :
  valid m → square 2 m → ∃ a b c d, m = Matrix.mk [a; b; c; d] 2 2.
Proof.
  destruct m as [vals ys xs]. intros (_ & _ & Hlen) [Hy Hx].
  cbn in *. subst.
  destruct vals as [|a [|b [|c [|d [|??]]]]]; cbn in Hlen; try lia.
  by exists a, b, c, d.
Qed.

(** The determinant of a 1×1 minor: its one element times the determinant
    of the 0×0 minor, which is the empty sum. *)
Lemma determinant_1x1_value (v : num) :
  is_finite v = true → determinant (Matrix.mk [v] 1 1) = Ok zero.
Proof.
  intros Hfin.
  destruct v as [[]|[]| |[] mv ev]; try discriminate Hfin;
    vm_compute; reflexivity.
Qed.

(** C4, as the code has it: the adjugate of a 2×2 matrix whose elements are
    finite has a zero in every place ([+0] at the even flattened indices,
    [−0] at the odd ones); hence, when the determinant is not zero, the
    inverse has a zero in every place as well. *)
Theorem adjugate_2x2_zero (m : Matrix.t) :
  valid m → square 2 m → float32_valued m → finite_valued m →
  adjugate m
  = Ok (Matrix.mk [zero; S754_zero true; zero; S754_zero true] 2 2)
  ∧ ∃ det, determinant m = Ok det
           ∧ (strict_eq det zero = false →
              ∃ i, inverse m = Ok i ∧ square 2 i ∧ all_zero i).
Proof.
  intros Hv Hsq Hf Hfin.
  destruct (valid_2x2 m Hv Hsq) as (a & b & c & d & ->).
  apply Forall_cons_1 in Hf as [Ha Hf]. apply Forall_cons_1 in Hf as [Hb Hf].
  apply Forall_cons_1 in Hf as [Hc Hf]. apply Forall_cons_1 in Hf as [Hd _].
  apply Forall_cons_1 in Hfin as [Fa Hfin].
  apply Forall_cons_1 in Hfin as [Fb Hfin].
  apply Forall_cons_1 in Hfin as [Fc Hfin].
  apply Forall_cons_1 in Hfin as [Fd _].
  assert (Hadj : adjugate (Matrix.mk [a; b; c; d] 2 2)
            = Ok (Matrix.mk [zero; S754_zero true; zero; S754_zero true] 2 2)).
  { unfold adjugate.
    assert (transpose (Matrix.mk [a; b; c; d] 2 2)
            = Ok (Matrix.mk [a; c; b; d] 2 2)) as ->
      by (cbv -[fround]; by rewrite Ha, Hb, Hc, Hd).
    cbn [mbind result_bind].
    assert (minors (Matrix.mk [a; c; b; d] 2 2)
            = Ok [Matrix.mk [d] 1 1; Matrix.mk [b] 1 1;
                  Matrix.mk [c] 1 1; Matrix.mk [a] 1 1]) as ->
      by (cbv -[fround]; by rewrite Ha, Hb, Hc, Hd).
    cbn [mbind result_bind]. rewrite mapiM_sign. cbn [mapM].
    rewrite !determinant_1x1_value by done.
    vm_compute. reflexivity. }
  split; [exact Hadj|].
  exists (sub (mul a d) (mul b c)). split; [reflexivity|].
  pose proof (ad_minus_bc_finite a b c d Ha Hb Hc Hd Fa Fb Fc Fd) as Hdfin.
  intros Hdnz. unfold inverse.
  change (determinant (Matrix.mk [a; b; c; d] 2 2))
    with (Ok (sub (mul a d) (mul b c))).
  cbn [mbind result_bind]. rewrite Hdnz, Hadj.
  destruct (sub (mul a d) (mul b c)) as [|[]| |[] md ed]; try discriminate;
    (eexists; split; [vm_compute; reflexivity|];
     split; [split; reflexivity | repeat constructor]).
Qed.

Lemma adjugate_2x2_zero_witness :
  valid m22 ∧ square 2 m22 ∧ float32_valued m22 ∧ finite_valued m22
  ∧ adjugate m22
    = Ok (Matrix.mk [zero; S754_zero true; zero; S754_zero true] 2 2)
  ∧ ∃ det, determinant m22 = Ok det
           ∧ (strict_eq det zero = false →
              ∃ i, inverse m22 = Ok i ∧ square 2 i ∧ all_zero i).
Proof.
  assert (Hv : valid m22) by (repeat split; vm_compute; congruence).
  assert (Hs : square 2 m22) by (split; reflexivity).
  assert (Hf : float32_valued m22) by (repeat constructor).
  assert (Hfin : finite_valued m22) by (repeat constructor).
  split; [exact Hv|]. split; [exact Hs|]. split; [exact Hf|].
  split; [exact Hfin|].
  exact (adjugate_2x2_zero m22 Hv Hs Hf Hfin).
Defined.

(** C4 as stated fails where an element is not finite:
    [matrix(2,2)(1e39,0,0,1)] stores [Infinity], and the last element of
    its adjugate, as of its inverse, is [NaN]. *)
Lemma adjugate_2x2_huge :
  Matrix.matrix 2 2 (huge :: ofZs [0; 0; 1]) = Ok m22_huge
  ∧ adjugate m22_huge
    = Ok (Matrix.mk [zero; S754_zero true; zero; NaN] 2 2)
  ∧ determinant m22_huge = Ok Infinity
  ∧ inverse m22_huge
    = Ok (Matrix.mk [zero; S754_zero true; zero; NaN] 2 2)
  ∧ ¬ all_zero (Matrix.mk [zero; S754_zero true; zero; NaN] 2 2).
Proof.
  split; [vm_compute; reflexivity|]. split; [vm_compute; reflexivity|].
  split; [vm_compute; reflexivity|]. split; [vm_compute; reflexivity|].
  intros Hall.
  by pose proof (Forall_lookup_1 _ _ 3%nat NaN Hall eq_refl).
Qed.

(** ** Transposition and the adjugate *)

Lemma length_array_set (a : list (option num)) (i : Z) (v : option num) :
  0 ≤ i < Z.of_nat (length a) → length (array_set a i v) = length a.
Proof.
  intros Hi. unfold array_set.
  rewrite (proj2 (Z.ltb_ge _ _)), (proj2 (Z.ltb_lt _ _)) by lia.
  apply length_insert.
Qed.

Lemma lookup_array_set (a : list (option num)) (i j : Z) (v : option num) :
  0 ≤ i < Z.of_nat (length a) → 0 ≤ j →
  array_set a i v !! Z.to_nat j
  = if i =? j then Some v else a !! Z.to_nat j.
Proof.
  intros Hi Hj. unfold array_set.
  rewrite (proj2 (Z.ltb_ge _ _)), (proj2 (Z.ltb_lt _ _)) by lia.
  destruct (Z.eqb_spec i j) as [->|Hne].
  - apply list_lookup_insert_eq. lia.
  - apply list_lookup_insert_ne. lia.
Qed.

(** The cells written by the loops of [transpose] once the rows before [Y]
    and the columns before [X] of row [Y] are done. *)
Lemma transpose_inner (ys xs Y : Z) (g : Z → Z → option num)
    (r : list (option num)) (j : nat) :
  0 ≤ Y < ys → Z.of_nat j ≤ xs →
  Z.of_nat (length r) = xs * ys →
  (∀ y x, 0 ≤ y < Y → 0 ≤ x < xs → r !! Z.to_nat (y + x * ys) = Some (g y x)) →
  let r' := foldl (λ result x, array_set result (Y + x * ys) (g Y x))
                  r (seqZ 0 (Z.of_nat j)) in
  Z.of_nat (length r') = xs * ys
  ∧ ∀ y x, 0 ≤ x < xs → 0 ≤ y < Y ∨ (y = Y ∧ x < Z.of_nat j) →
           r' !! Z.to_nat (y + x * ys) = Some (g y x).
Proof.
  intros HY Hj Hlen Hr. induction j as [|j IH]; cbn zeta.
  - split; [done|]. intros y x Hx [Hy|[_ ?]]; [by apply Hr | lia].
  - rewrite seqZ_S, foldl_app. cbn [foldl]. rewrite Z.add_0_l.
    destruct IH as [Hlen' Hr']; [lia|].
    set (r' := foldl _ r (seqZ 0 (Z.of_nat j))) in *.
    assert (Hin : 0 ≤ Y + Z.of_nat j * ys < Z.of_nat (length r')) by nia.
    split; [by rewrite length_array_set|].
    intros y x Hx Hyx. rewrite lookup_array_set by (done || nia).
    destruct (Z.eqb_spec (Y + Z.of_nat j * ys) (y + x * ys)) as [Heq|Hne].
    + assert (0 ≤ y < ys) by lia.
      assert (x = Z.of_nat j ∧ y = Y) as [-> ->]; [|done].
      assert (Hd : (x * ys + y) `div` ys = (Z.of_nat j * ys + Y) `div` ys)
        by (f_equal; lia).
      assert (Hm : (x * ys + y) `mod` ys = (Z.of_nat j * ys + Y) `mod` ys)
        by (f_equal; lia).
      destruct (flat_index ys x y) as [Hd1 Hm1]; [lia|].
      destruct (flat_index ys (Z.of_nat j) Y) as [Hd2 Hm2]; [lia|].
      lia.
    + apply Hr'; [done|]. destruct Hyx as [?|[-> ?]]; [by left|].
      right. split; [done|]. assert (x ≠ Z.of_nat j) by (intros ->; lia). lia.
Qed.

Lemma transpose_outer (m : Matrix.t) (k : nat) :
  valid m → Z.of_nat k ≤ ySize m →
  let r := foldl (λ result y,
             foldl (λ result x,
               array_set result (y + x * ySize m)
                         (typed_get (values m) (y * xSize m + x)))
               result (seqZ 0 (xSize m)))
             (replicate (Z.to_nat (xSize m * ySize m)) None)
             (seqZ 0 (Z.of_nat k)) in
  Z.of_nat (length r) = xSize m * ySize m
  ∧ ∀ y x, 0 ≤ y < Z.of_nat k → 0 ≤ x < xSize m →
           r !! Z.to_nat (y + x * ySize m) = Some (get m y x).
Proof.
  intros (Hys & Hxs & Hlen) Hk. induction k as [|k IH]; cbn zeta.
  - change (seqZ 0 (Z.of_nat 0)) with (@nil Z). cbn [foldl].
    split; [rewrite length_replicate; nia | lia].
  - rewrite seqZ_S, foldl_app. cbn [foldl]. rewrite Z.add_0_l.
    destruct IH as [Hlen' Hr']; [lia|].
    set (r := foldl _ _ (seqZ 0 (Z.of_nat k))) in *.
    pose proof (transpose_inner (ySize m) (xSize m) (Z.of_nat k) (get m) r
                  (Z.to_nat (xSize m))) as Hin.
    rewrite Z2Nat.id in Hin by done. cbn zeta in Hin.
    destruct Hin as [Hlen'' Hr'']; [lia|lia|done|done|].
    split; [done|]. intros y x Hy Hx. apply Hr''; [done|]. lia.
Qed.

(** The loops of [transpose] fill the array with [source[y][x]] at
    [result[x][y]]. *)
Lemma transpose_eq (m : Matrix.t) :
  valid m → transpose m = new (xSize m) (ySize m) (transposed m).
Proof.
  intros Hv. pose proof Hv as (Hys & Hxs & Hlen).
  unfold transpose, Array_new.
  rewrite (proj2 (Z.ltb_ge _ _)) by nia. cbn [mbind result_bind]. f_equal.
  pose proof (transpose_outer m (Z.to_nat (ySize m)) Hv ltac:(lia)) as Hout.
  rewrite Z2Nat.id in Hout by done. cbn zeta in Hout.
  destruct Hout as [Hlen' Hr]. set (r := foldl _ _ _) in *.
  apply list_eq. intros i.
  destruct (decide (Z.of_nat i < xSize m * ySize m)) as [Hi|Hi].
  - assert (Hypos : 0 < ySize m) by nia.
    pose proof (Z.div_mod (Z.of_nat i) (ySize m) ltac:(lia)) as Hdm.
    pose proof (Z.mod_pos_bound (Z.of_nat i) (ySize m) Hypos) as Hmod.
    assert (Hdiv : 0 ≤ Z.of_nat i `div` ySize m < xSize m).
    { split; [apply Z.div_pos; lia|]. apply Z.div_lt_upper_bound; lia. }
    replace i with (Z.to_nat (Z.of_nat i `mod` ySize m
                              + Z.of_nat i `div` ySize m * ySize m)) by lia.
    rewrite Hr by done. unfold transposed.
    replace (Z.of_nat i `mod` ySize m + Z.of_nat i `div` ySize m * ySize m)
      with (Z.of_nat i `div` ySize m * ySize m + Z.of_nat i `mod` ySize m) by lia.
    by rewrite (lookup_row_major (λ x y, get m y x)).
  - rewrite !lookup_ge_None_2; [done| |lia].
    unfold transposed.
    rewrite (length_bind_const _ _ (Z.to_nat (ySize m))).
    + rewrite length_seqZ. nia.
    + intros x _. rewrite (length_bind_const _ _ 1%nat) by done.
      rewrite length_seqZ. lia.
Qed.

Lemma length_transposed (m : Matrix.t) :
  valid m → Z.of_nat (length (transposed m)) = xSize m * ySize m.
Proof.
  intros (Hys & Hxs & _). unfold transposed.
  rewrite (length_bind_const _ _ (Z.to_nat (ySize m))).
  - rewrite length_seqZ. nia.
  - intros x _. rewrite (length_bind_const _ _ 1%nat) by done.
    rewrite length_seqZ. lia.
Qed.

Lemma transpose_valid (m : Matrix.t) :
  valid m →
  ∃ tr, transpose m = Ok tr ∧ valid tr
        ∧ ySize tr = xSize m ∧ xSize tr = ySize m.
Proof.
  intros Hv. pose proof Hv as (Hys & Hxs & _).
  rewrite transpose_eq, new_Ok by (done || by apply length_transposed).
  eexists. split; [done|]. repeat split; cbn; try done.
  rewrite length_Float32Array_from. by apply length_transposed.
Qed.

(** [adjugate] is the composition the specification describes. *)
Lemma adjugate_eq_spec (m : Matrix.t) :
  valid m → adjugate m = adjugate_spec m.
Proof.
  intros Hv. pose proof Hv as (Hys & Hxs & _).
  unfold adjugate, adjugate_spec. rewrite <- transpose_eq by done.
  destruct (transpose_valid m Hv) as (tr & -> & _ & Hty & Htx).
  cbn [mbind result_bind]. rewrite minors_flat by lia.
  destruct (mapM (minor_at tr) _) as [ms|e]; cbn; [|done].
  rewrite mapiM_sign. by destruct (mapM determinant ms).
Qed.

(** On a square matrix [adjugate] returns a matrix. *)
Lemma adjugate_total (m : Matrix.t) (n : Z) :
  valid m → square n m → ∃ r, adjugate m = Ok r ∧ square n r.
Proof.
  intros Hv [Hy Hx]. unfold adjugate.
  destruct (transpose_valid m Hv) as (tr & -> & Htr & Hty & Htx).
  cbn [mbind result_bind]. pose proof Htr as (Htys & Htxs & _).
  rewrite minors_flat by done.
  destruct (mapM_total (λ mi, valid mi ∧ xSize mi = ySize mi)
              (minor_at tr) (seqZ 0 (ySize tr * xSize tr)))
    as (ms & Hms & Hall).
  { intros k Hk%elem_of_seqZ. unfold minor_at.
    assert (0 < xSize tr) by nia.
    destruct (minor_valid tr (k `div` xSize tr) (k `mod` xSize tr))
      as (mi & Hmi & Hvi & Hyi & Hxi & _); [done| |by apply Z.mod_pos_bound|].
    - split; [apply Z.div_pos; lia|]. apply Z.div_lt_upper_bound; lia.
    - exists mi. split; [done|]. split; [done|]. lia. }
  rewrite Hms. cbn [mbind result_bind]. rewrite mapiM_sign.
  destruct (mapM_total (λ _, True) determinant ms) as (ds & Hds & _).
  { intros mi Hin. rewrite Forall_forall in Hall.
    destruct (Hall mi Hin) as [Hvi Hsqi].
    destruct (determinant_total mi Hvi Hsqi) as [d Hd]. eauto. }
  rewrite Hds. cbn [mbind result_bind].
  apply mapM_Ok_length in Hms, Hds. rewrite length_seqZ in Hms.
  rewrite new_Ok.
  - eexists. split; [done|]. by split.
  - rewrite length_fmap, length_zip_with_l_eq by (by rewrite length_seqZ, Nat2Z.id).
    nia.
Qed.

(** C6: where [adjugate()] succeeds on a square matrix, its result is that
    of transposing, taking the minors of the transposed matrix in row-major
    order, multiplying the determinant of each by [(−1)] raised to its
    flattened index, and assembling the products in the receiver's shape.
    The sign is not the checkerboard sign: at the flattened index [5] of a
    4×4 matrix, row 1 and column 1, it is [−1], so that the adjugate of
    [identity(4)] has [−1] there. *)
Theorem adjugate_flattened_index_sign (m r : Matrix.t) (n : Z) :
  valid m → square n m → adjugate m = Ok r →
  adjugate_spec m = Ok r
  ∧ square n r
  ∧ pow_neg1 5 = of_Z (-1) ∧ checkerboard 4 5 = of_Z 1
  ∧ ∃ adj, adjugate identity4 = Ok adj ∧ get adj 1 1 = Some (of_Z (-1)).
Proof.
  intros Hv [Hy Hx] Hadj. split; [by rewrite <- adjugate_eq_spec|].
  split.
  - unfold adjugate in Hadj.
    apply bind_Ok_inv in Hadj as (tr & _ & Hadj).
    apply bind_Ok_inv in Hadj as (ms & _ & Hadj).
    apply bind_Ok_inv in Hadj as (vals & _ & Hadj).
    apply new_inv in Hadj as [-> _]. by split.
  - split; [reflexivity|]. split; [reflexivity|].
    eexists. split; vm_compute; reflexivity.
Qed.

Lemma adjugate_flattened_index_sign_witness :
  valid minvertable ∧ square 3 minvertable
  ∧ ∃ r, adjugate minvertable = Ok r ∧ adjugate_spec minvertable = Ok r.
Proof.
  assert (Hv : valid minvertable) by (repeat split; vm_compute; congruence).
  assert (Hs : square 3 minvertable) by (split; reflexivity).
  split; [exact Hv|]. split; [exact Hs|].
  exists (Matrix.mk (ofZs [-24; 18; 5; 20; -15; -4; -5; 4; 1]) 3 3).
  assert (Hadj : adjugate minvertable
            = Ok (Matrix.mk (ofZs [-24; 18; 5; 20; -15; -4; -5; 4; 1]) 3 3))
    by (vm_compute; reflexivity).
  split; [exact Hadj|].
  exact (proj1 (adjugate_flattened_index_sign minvertable _ 3 Hv Hs Hadj)).
Defined.

(** * Further properties *)

(** ** Reading a matrix row after row *)

Lemma bind_ext_in {A B : Type} (f g : A → list B) (l : list A) :
  (∀ a, a ∈ l → f a = g a) → l ≫= f = l ≫= g.
Proof.
  intros Hfg. apply Forall_bind_ext, Forall_forall. exact Hfg.
Qed.

Lemma foldl_ext_in {A B : Type} (f g : A → B → A) (l : list B) (a : A) :
  (∀ a b, b ∈ l → f a b = g a b) → foldl f a l = foldl g a l.
Proof.
  revert a. induction l as [|b l IH]; intros a Hfg; [done|]. cbn.
  rewrite Hfg by left. apply IH. intros a' b' Hin. apply Hfg. by right.
Qed.

Lemma row_major_ext {A : Type} (ys xs : Z) (h k : Z → Z → A) :
  (∀ y x, 0 ≤ y < ys → 0 ≤ x < xs → h y x = k y x) →
  row_major ys xs h = row_major ys xs k.
Proof.
  intros Hhk. unfold row_major.
  apply bind_ext_in. intros y Hy%elem_of_seqZ.
  apply bind_ext_in. intros x Hx%elem_of_seqZ.
  rewrite Hhk by lia. done.
Qed.

Lemma fmap_row_major {A B : Type} (f : A → B) (ys xs : Z) (h : Z → Z → A) :
  f <$> row_major ys xs h = row_major ys xs (λ y x, f (h y x)).
Proof.
  unfold row_major. induction (seqZ 0 ys) as [|y l IH]; [done|].
  rewrite !bind_cons, fmap_app, IH. f_equal.
  by rewrite !bind_singleton, <- list_fmap_compose.
Qed.

Lemma length_row_major {A : Type} (ys xs : Z) (h : Z → Z → A) :
  0 ≤ ys → 0 ≤ xs → Z.of_nat (length (row_major ys xs h)) = ys * xs.
Proof.
  intros Hys Hxs. unfold row_major.
  rewrite (length_bind_const _ _ (Z.to_nat xs)).
  - rewrite length_seqZ. nia.
  - intros y _. rewrite (length_bind_const _ _ 1%nat) by done.
    rewrite length_seqZ. lia.
Qed.

(** The elements of a matrix, read row after row, are its values. *)
Lemma values_row_major (m : Matrix.t) :
  valid m → row_major (ySize m) (xSize m) (get m) = Some <$> values m.
Proof.
  intros (Hys & Hxs & Hlen). unfold row_major.
  rewrite row_major_fmap by done. apply list_eq. intros i.
  rewrite !list_lookup_fmap.
  destruct (decide (Z.of_nat i < ySize m * xSize m)) as [Hi|Hi].
  - rewrite lookup_seqZ_lt by done. cbn. rewrite Z.add_0_l.
    assert (Hxpos : 0 < xSize m) by nia.
    pose proof (Z.div_mod (Z.of_nat i) (xSize m) ltac:(lia)) as Hdm.
    unfold get, typed_get.
    replace (Z.of_nat i `div` xSize m * xSize m + Z.of_nat i `mod` xSize m)
      with (Z.of_nat i) by lia.
    rewrite (proj2 (Z.ltb_ge _ _)), Nat2Z.id by lia.
    destruct (lookup_lt_is_Some_2 (values m) i) as [v ->]; [lia|]. done.
  - rewrite lookup_seqZ_ge by lia. cbn.
    rewrite (lookup_ge_None_2 (values m)) by lia. done.
Qed.

(** A matrix whose values are an array written row after row has its
    entries where they were written. *)
Lemma get_row_major (r : Matrix.t) (h : Z → Z → option num) (y x : Z) :
  Some <$> values r = row_major (ySize r) (xSize r) h →
  0 ≤ y < ySize r → 0 ≤ x < xSize r →
  get r y x = h y x.
Proof.
  intros Hvals Hy Hx. unfold get, typed_get.
  rewrite (proj2 (Z.ltb_ge _ _)) by nia.
  pose proof (lookup_row_major h (ySize r) (xSize r) y x Hy Hx) as Hl.
  fold (row_major (ySize r) (xSize r) h) in Hl.
  rewrite <- Hvals, list_lookup_fmap in Hl.
  destruct (values r !! _) as [v|]; [|done].
  cbn in Hl. by injection Hl as <-.
Qed.

(** Two matrices of the same sizes and with the same entries are the same
    matrix. *)
Lemma matrix_ext (a b : Matrix.t) :
  valid a → valid b → ySize a = ySize b → xSize a = xSize b →
  (∀ y x, 0 ≤ y < ySize a → 0 ≤ x < xSize a → get a y x = get b y x) →
  a = b.
Proof.
  intros Ha Hb Hy Hx Hget.
  pose proof (values_row_major a Ha) as Hva.
  pose proof (values_row_major b Hb) as Hvb.
  rewrite <- Hy, <- Hx in Hvb.
  rewrite (row_major_ext _ _ _ (get b) Hget), Hvb in Hva.
  apply (inj (fmap Some)) in Hva.
  destruct a, b. cbn in *. by subst.
Qed.

(** Storing elements that come out of a matrix: a constructor call that
    cannot fail, and a result that holds them as they are. *)
Lemma new_rearranged (m : Matrix.t) (ys xs : Z) (h : Z → Z → option num) :
  valid m → float32_valued m → 0 ≤ ys → 0 ≤ xs →
  (∀ y x, 0 ≤ y < ys → 0 ≤ x < xs →
     ∃ y0 x0, 0 ≤ y0 < ySize m ∧ 0 ≤ x0 < xSize m ∧ h y x = get m y0 x0) →
  ∃ r, new ys xs (row_major ys xs h) = Ok r
       ∧ valid r ∧ float32_valued r
       ∧ ySize r = ys ∧ xSize r = xs
       ∧ Some <$> values r = row_major ys xs h.
Proof.
  intros Hv Hf Hys Hxs Hh.
  rewrite new_Ok by (by apply length_row_major).
  eexists. split; [done|].
  assert (Hst : Forall (λ o, ∃ v, o = Some v ∧ fround v = v)
                       (row_major ys xs h)).
  { apply Forall_forall. intros o. unfold row_major.
    intros (y & (x & Ho & Hx)%list_elem_of_bind & Hy)%list_elem_of_bind.
    apply list_elem_of_singleton in Ho as ->.
    apply elem_of_seqZ in Hy, Hx.
    destruct (Hh y x) as (y0 & x0 & Hy0 & Hx0 & ->); [lia..|].
    destruct (valid_get m y0 x0 Hv Hy0 Hx0) as (v & Hg & Hl).
    exists v. split; [done|]. exact (Forall_lookup_1 _ _ _ _ Hf Hl). }
  pose proof (Float32Array_from_stored _ Hst) as Hvals.
  split; [|split; [|split; [done|split; [done|exact Hvals]]]].
  - repeat split; cbn; try done.
    rewrite length_Float32Array_from. by apply length_row_major.
  - unfold float32_valued. cbn [values].
    unfold Float32Array_from. apply Forall_fmap, Forall_true. intros o.
    apply fround_idempotent.
Qed.

(** ** The constructor *)

Lemma Float32Array_from_typed (ta : list num) :
  Forall (λ v, fround v = v) ta →
  Float32Array_from (typed_to_array ta) = ta.
Proof.
  intros Hf. unfold Float32Array_from, typed_to_array.
  rewrite <- list_fmap_compose. rewrite <- (list_fmap_id ta) at 2.
  apply Forall_fmap_ext_1. eapply Forall_impl; [exact Hf|]. done.
Qed.

(** X1: what the constructor returns has the sizes it was given and as many
    elements as their product, each the binary32 rounding of the element it
    was given ([NaN] for [undefined]); storing these again changes none of
    them, and constructing a matrix from the fields of the result gives the
    result back. *)
Theorem new_round_trip (ys xs : Z) (vals : list (option num)) (r : Matrix.t) :
  new ys xs vals = Ok r →
  ySize r = ys ∧ xSize r = xs
  ∧ Z.of_nat (length vals) = ys * xs
  ∧ values r = (λ v, fround (to_number v)) <$> vals
  ∧ float32_valued r
  ∧ new (ySize r) (xSize r) (typed_to_array (values r)) = Ok r.
Proof.
  intros Hnew. pose proof (new_float32_valued _ _ _ _ Hnew) as Hf.
  apply new_inv in Hnew as [-> Hlen]. cbn [ySize xSize values].
  split; [done|]. split; [done|]. split; [done|]. split; [done|].
  split; [done|].
  rewrite new_Ok.
  - by rewrite Float32Array_from_typed.
  - unfold typed_to_array. by rewrite length_fmap, length_Float32Array_from.
Qed.

Lemma new_round_trip_witness :
  new 2 2 (Some <$> ofZs [1; 2; 3; 4]) = Ok m22
  ∧ float32_valued m22
  ∧ new (ySize m22) (xSize m22) (typed_to_array (values m22)) = Ok m22.
Proof.
  assert (Hnew : new 2 2 (Some <$> ofZs [1; 2; 3; 4]) = Ok m22)
    by (vm_compute; reflexivity).
  split; [exact Hnew|].
  exact (proj2 (proj2 (proj2 (proj2 (new_round_trip 2 2 _ m22 Hnew))))).
Defined.

(** ** [eq] *)

(** [===] on numbers: reflexive but at [NaN], and symmetric. *)
Lemma strict_eq_refl (v : num) : strict_eq v v = true ↔ v ≠ NaN.
Proof.
  unfold strict_eq, SFeqb, NaN.
  destruct v as [s|s| |s m e]; cbn; try (split; congruence).
  - by destruct s.
  - rewrite Z.compare_refl, Pos.compare_cont_refl. by destruct s.
Qed.

Lemma strict_eq_sym (u v : num) : strict_eq u v = strict_eq v u.
Proof.
  unfold strict_eq, SFeqb.
  destruct u as [s|s| |s m e], v as [s'|s'| |s' m' e']; cbn;
    try done; try (by destruct s); try (by destruct s');
    try (by destruct s, s').
  change (Pos.compare_cont Eq m' m) with (Pos.compare m' m).
  change (Pos.compare_cont Eq m m') with (Pos.compare m m').
  rewrite (Z.compare_antisym e e'), (Pos.compare_antisym m m').
  by destruct s, s', (e ?= e'), (m ?= m')%positive.
Qed.

(** The loop of [eq] runs over the receiver's elements; an element the
    argument does not have is [undefined], and differs. *)
Lemma eq_loop (a b : list num) :
  forallb (λ i, negb (strict_ne (to_number (typed_get a i)) (typed_get b i)))
          (seqZ 0 (Z.of_nat (length a))) = true
  ↔ ∀ i u, a !! i = Some u → ∃ v, b !! i = Some v ∧ strict_eq u v = true.
Proof.
  rewrite forallb_forall. split.
  - intros H i u Hi. specialize (H (Z.of_nat i)).
    pose proof (lookup_lt_Some _ _ _ Hi) as Hlt.
    unfold typed_get in H.
    rewrite (proj2 (Z.ltb_ge _ _)), Nat2Z.id, Hi in H by lia.
    cbn in H. destruct (b !! i) as [v|]; cbn in H.
    + exists v. split; [done|].
      apply negb_true_iff, negb_false_iff in H; [done|].
      apply list_elem_of_In, elem_of_seqZ. lia.
    + discriminate H. apply list_elem_of_In, elem_of_seqZ. lia.
  - intros H i Hi%list_elem_of_In%elem_of_seqZ.
    unfold typed_get. rewrite (proj2 (Z.ltb_ge _ _)) by lia.
    destruct (lookup_lt_is_Some_2 a (Z.to_nat i)) as [u Hu]; [lia|].
    destruct (H _ _ Hu) as (v & -> & Heq). rewrite Hu. cbn. by rewrite Heq.
Qed.

(** With as many values as the sizes say, the loop compares all the pairs. *)
Lemma eq_iff (a b : Matrix.t) :
  valid a → valid b →
  Matrix.eq a b = true
  ↔ ySize a = ySize b ∧ xSize a = xSize b
    ∧ strict_eq_values (values a) (values b).
Proof.
  intros (_ & _ & Ha) (_ & _ & Hb). unfold Matrix.eq, strict_eq_values.
  destruct (Z.eqb_spec (xSize a) (xSize b)) as [Hx|Hx]; cbn [negb orb];
    [|split; [done|intros (_ & ? & _); done]].
  destruct (Z.eqb_spec (ySize a) (ySize b)) as [Hy|Hy]; cbn [negb];
    [|split; [done|intros (? & _); done]].
  rewrite eq_loop, Forall2_same_length_lookup. split.
  - intros H. split; [done|]. split; [done|]. split; [lia|].
    intros i u v Hu Hv. destruct (H _ _ Hu) as (v' & Hv' & Heq). congruence.
  - intros (_ & _ & Hlen & H) i u Hu.
    destruct (lookup_lt_is_Some_2 (values b) i) as [v Hv].
    { apply lookup_lt_Some in Hu. lia. }
    exists v. split; [done|]. by apply (H i).
Qed.

(** X2: on two matrices that the constructor could have built, [eq] answers
    [true] exactly when the sizes are the same and the elements are
    pairwise [===]. *)
Theorem eq_spec (a b : Matrix.t) :
  valid a → valid b →
  Matrix.eq a b = true
  ↔ ySize a = ySize b ∧ xSize a = xSize b
    ∧ strict_eq_values (values a) (values b).
Proof. exact (eq_iff a b). Qed.

Lemma eq_spec_witness :
  valid m22 ∧ valid m32
  ∧ (Matrix.eq m22 m32 = true
     ↔ ySize m22 = ySize m32 ∧ xSize m22 = xSize m32
       ∧ strict_eq_values (values m22) (values m32)).
Proof.
  assert (Ha : valid m22) by (repeat split; vm_compute; congruence).
  assert (Hb : valid m32) by (repeat split; vm_compute; congruence).
  split; [exact Ha|]. split; [exact Hb|].
  exact (eq_spec m22 m32 Ha Hb).
Defined.

(** X3: a matrix is [eq] to itself exactly when none of its elements is
    [NaN]. *)
Theorem eq_reflexive_iff (m : Matrix.t) :
  Matrix.eq m m = true ↔ no_NaN m.
Proof.
  unfold Matrix.eq, no_NaN. rewrite !Z.eqb_refl. cbn [negb orb].
  rewrite eq_loop, Forall_lookup. split.
  - intros H i u Hu. destruct (H _ _ Hu) as (v & Hv & Heq).
    apply strict_eq_refl. congruence.
  - intros H i u Hu. exists u. split; [done|]. apply strict_eq_refl.
    by apply (H i).
Qed.

(** X4: between matrices that the constructor could have built, [eq] does
    not depend on which of the two is the receiver, although its loop runs
    over the receiver's elements only. *)
Theorem eq_symmetric (a b : Matrix.t) :
  valid a → valid b → Matrix.eq a b = Matrix.eq b a.
Proof.
  intros Ha Hb. apply eq_true_iff_eq.
  rewrite (eq_iff a b Ha Hb), (eq_iff b a Hb Ha). unfold strict_eq_values.
  split; intros (Hy & Hx & H); (split; [done|]); (split; [done|]);
    apply Forall2_flip; eapply Forall2_impl; try exact H;
    intros u v Huv; cbn; by rewrite strict_eq_sym.
Qed.

Lemma eq_symmetric_witness :
  valid m22 ∧ valid m32 ∧ Matrix.eq m22 m32 = Matrix.eq m32 m22.
Proof.
  assert (Ha : valid m22) by (repeat split; vm_compute; congruence).
  assert (Hb : valid m32) by (repeat split; vm_compute; congruence).
  split; [exact Ha|]. split; [exact Hb|].
  exact (eq_symmetric m22 m32 Ha Hb).
Defined.

(** ** Transposition *)

(** The elements of the transpose; the properties of [transpose] below, and
    those of the operations that call it, rest on this. *)
Lemma transpose_get (m : Matrix.t) :
  valid m → float32_valued m →
  ∃ tr, transpose m = Ok tr
        ∧ valid tr ∧ float32_valued tr
        ∧ ySize tr = xSize m ∧ xSize tr = ySize m
        ∧ ∀ y x, 0 ≤ y < ySize m → 0 ≤ x < xSize m →
                 get tr x y = get m y x.
Proof.
  intros Hv Hf. pose proof Hv as (Hys & Hxs & _).
  rewrite transpose_eq by done.
  destruct (new_rearranged m (xSize m) (ySize m) (λ x y, get m y x))
    as (tr & Htr & Hvt & Hft & Hty & Htx & Hvals); [done..| |].
  { intros x y Hx Hy. by exists y, x. }
  exists tr. split; [exact Htr|]. split; [done|]. split; [done|].
  split; [done|]. split; [done|].
  intros y x Hy Hx. apply (get_row_major tr (λ x y, get m y x)); [|lia..].
  by rewrite Hty, Htx.
Qed.

(** X5: [transpose] of a matrix of binary32 values returns a matrix with
    the two sizes exchanged that has at [(x, y)] the very element the
    receiver has at [(y, x)]. *)
Theorem transpose_entries (m : Matrix.t) :
  valid m → float32_valued m →
  ∃ tr, transpose m = Ok tr
        ∧ valid tr ∧ float32_valued tr
        ∧ ySize tr = xSize m ∧ xSize tr = ySize m
        ∧ ∀ y x, 0 ≤ y < ySize m → 0 ≤ x < xSize m →
                 get tr x y = get m y x.
Proof. exact (transpose_get m). Qed.

Lemma transpose_entries_witness :
  valid m32 ∧ float32_valued m32
  ∧ ∃ tr, transpose m32 = Ok tr
          ∧ valid tr ∧ float32_valued tr
          ∧ ySize tr = xSize m32 ∧ xSize tr = ySize m32
          ∧ ∀ y x, 0 ≤ y < ySize m32 → 0 ≤ x < xSize m32 →
                   get tr x y = get m32 y x.
Proof.
  assert (Hv : valid m32) by (repeat split; vm_compute; congruence).
  assert (Hf : float32_valued m32) by (repeat constructor).
  split; [exact Hv|]. split; [exact Hf|].
  exact (transpose_entries m32 Hv Hf).
Defined.

(** X6: transposing twice gives the matrix back. *)
Theorem transpose_involutive (m : Matrix.t) :
  valid m → float32_valued m →
  (tr ← transpose m; transpose tr) = Ok m.
Proof.
  intros Hv Hf.
  destruct (transpose_get m Hv Hf)
    as (tr & -> & Hvt & Hft & Hty & Htx & Hget).
  cbn [mbind result_bind].
  destruct (transpose_get tr Hvt Hft)
    as (tt & -> & Hvtt & _ & Htty & Httx & Hget').
  f_equal. apply matrix_ext; [done|done|lia|lia|].
  intros y x Hy Hx. rewrite Hget' by lia. apply Hget; lia.
Qed.

Lemma transpose_involutive_witness :
  valid m32 ∧ float32_valued m32
  ∧ (tr ← transpose m32; transpose tr) = Ok m32.
Proof.
  assert (Hv : valid m32) by (repeat split; vm_compute; congruence).
  assert (Hf : float32_valued m32) by (repeat constructor).
  split; [exact Hv|]. split; [exact Hf|].
  exact (transpose_involutive m32 Hv Hf).
Defined.

(** ** Rows, mirrored rows and columns *)

(** Inside the matrix, the slice that [mirror] and [row] take is row [y]. *)
Lemma slice_row (m : Matrix.t) (y : Z) :
  valid m → 0 ≤ y < ySize m →
  Some <$> typed_slice (values m) (y * xSize m) (y * xSize m + xSize m)
  = (λ x, get m y x) <$> seqZ 0 (xSize m).
Proof.
  intros (Hys & Hxs & Hlen) Hy. unfold typed_slice, slice_index.
  rewrite !(proj2 (Z.ltb_ge _ 0)) by nia.
  rewrite !Z.min_l by nia.
  replace (y * xSize m + xSize m - y * xSize m) with (xSize m) by lia.
  apply list_eq. intros i. rewrite !list_lookup_fmap.
  destruct (decide (Z.of_nat i < xSize m)) as [Hi|Hi].
  - rewrite lookup_take_lt, lookup_drop, lookup_seqZ_lt by lia. cbn.
    unfold get, typed_get. rewrite (proj2 (Z.ltb_ge _ _)) by nia.
    replace (Z.to_nat (y * xSize m + (0 + Z.of_nat i)))
      with (Z.to_nat (y * xSize m) + i)%nat by lia.
    destruct (lookup_lt_is_Some_2 (values m) (Z.to_nat (y * xSize m) + i))
      as [v ->]; [nia|]. done.
  - rewrite lookup_take_ge, lookup_seqZ_ge by lia. done.
Qed.

(** The loop of [mirror] appends every row reversed. *)
Lemma mirror_eq (m : Matrix.t) :
  valid m → mirror m = new (ySize m) (xSize m) (mirrored m).
Proof.
  intros Hv. unfold mirror, mirrored, row_major. f_equal.
  change (seqZ 0 (ySize m) ≫= ?g) with ([] ++ (seqZ 0 (ySize m) ≫= g)).
  apply foldl_append. intros acc y Hy%elem_of_seqZ. cbn zeta. f_equal.
  unfold typed_to_array. rewrite fmap_reverse, slice_row by (done || lia).
  rewrite <- fmap_reverse, reverse_seqZ, <- list_fmap_compose.
  by rewrite bind_singleton.
Qed.

(** The elements of the mirrored matrix. *)
Lemma mirror_get (m : Matrix.t) :
  valid m → float32_valued m →
  ∃ r, mirror m = Ok r
       ∧ valid r ∧ float32_valued r
       ∧ ySize r = ySize m ∧ xSize r = xSize m
       ∧ ∀ y x, 0 ≤ y < ySize m → 0 ≤ x < xSize m →
                get r y x = get m y (xSize m - 1 - x).
Proof.
  intros Hv Hf. pose proof Hv as (Hys & Hxs & _).
  rewrite mirror_eq by done. unfold mirrored.
  destruct (new_rearranged m (ySize m) (xSize m)
              (λ y x, get m y (xSize m - 1 - x)))
    as (r & Hr & Hvr & Hfr & Hry & Hrx & Hvals); [done..| |].
  { intros y x Hy Hx. exists y, (xSize m - 1 - x). repeat split; lia. }
  exists r. split; [exact Hr|]. split; [done|]. split; [done|].
  split; [done|]. split; [done|].
  intros y x Hy Hx.
  apply (get_row_major r (λ y x, get m y (xSize m - 1 - x))); [|lia..].
  by rewrite Hry, Hrx.
Qed.

(** X7: [mirror] of a matrix of binary32 values returns a matrix of the
    same sizes that has at [(y, x)] the element the receiver has at
    [(y, xSize - 1 - x)]. *)
Theorem mirror_entries (m : Matrix.t) :
  valid m → float32_valued m →
  ∃ r, mirror m = Ok r
       ∧ valid r ∧ float32_valued r
       ∧ ySize r = ySize m ∧ xSize r = xSize m
       ∧ ∀ y x, 0 ≤ y < ySize m → 0 ≤ x < xSize m →
                get r y x = get m y (xSize m - 1 - x).
Proof. exact (mirror_get m). Qed.

Lemma mirror_entries_witness :
  valid m32 ∧ float32_valued m32
  ∧ ∃ r, mirror m32 = Ok r
         ∧ valid r ∧ float32_valued r
         ∧ ySize r = ySize m32 ∧ xSize r = xSize m32
         ∧ ∀ y x, 0 ≤ y < ySize m32 → 0 ≤ x < xSize m32 →
                  get r y x = get m32 y (xSize m32 - 1 - x).
Proof.
  assert (Hv : valid m32) by (repeat split; vm_compute; congruence).
  assert (Hf : float32_valued m32) by (repeat constructor).
  split; [exact Hv|]. split; [exact Hf|].
  exact (mirror_entries m32 Hv Hf).
Defined.

(** X8: mirroring twice gives the matrix back. *)
Theorem mirror_involutive (m : Matrix.t) :
  valid m → float32_valued m →
  (r ← mirror m; mirror r) = Ok m.
Proof.
  intros Hv Hf.
  destruct (mirror_get m Hv Hf)
    as (r & -> & Hvr & Hfr & Hry & Hrx & Hget).
  cbn [mbind result_bind].
  destruct (mirror_get r Hvr Hfr)
    as (rr & -> & Hvrr & _ & Hrry & Hrrx & Hget').
  f_equal. apply matrix_ext; [done|done|lia|lia|].
  intros y x Hy Hx. rewrite Hget', Hget by lia. f_equal. lia.
Qed.

Lemma mirror_involutive_witness :
  valid m32 ∧ float32_valued m32 ∧ (r ← mirror m32; mirror r) = Ok m32.
Proof.
  assert (Hv : valid m32) by (repeat split; vm_compute; congruence).
  assert (Hf : float32_valued m32) by (repeat constructor).
  split; [exact Hv|]. split; [exact Hf|].
  exact (mirror_involutive m32 Hv Hf).
Defined.

(** ** Rotations *)

(** The elements of the rotated matrix, with the matrix that holds them. *)
Lemma rotate_get (m : Matrix.t) :
  valid m → float32_valued m →
  ∃ r, rotate m = Ok r
       ∧ valid r ∧ float32_valued r
       ∧ ySize r = xSize m ∧ xSize r = ySize m
       ∧ ∀ x j, 0 ≤ x < xSize m → 0 ≤ j < ySize m →
                get r x j = get m (ySize m - 1 - j) x.
Proof.
  intros Hv Hf. pose proof Hv as (Hys & Hxs & _).
  rewrite rotate_eq, rotated_row_major.
  destruct (new_rearranged m (xSize m) (ySize m)
              (λ x j, get m (ySize m - 1 - j) x))
    as (r & Hr & Hvr & Hfr & Hry & Hrx & Hvals); [done..| |].
  { intros x j Hx Hj. exists (ySize m - 1 - j), x. repeat split; lia. }
  exists r. split; [exact Hr|]. split; [done|]. split; [done|].
  split; [done|]. split; [done|].
  intros x j Hx Hj.
  apply (get_row_major r (λ x j, get m (ySize m - 1 - j) x)); [|lia..].
  by rewrite Hry, Hrx.
Qed.

(** X9: [rotate] is [transpose] followed by [mirror]. *)
Theorem rotate_transpose_mirror (m : Matrix.t) :
  valid m → float32_valued m →
  rotate m = (tr ← transpose m; mirror tr).
Proof.
  intros Hv Hf. pose proof Hv as (Hys & Hxs & _).
  destruct (transpose_get m Hv Hf)
    as (tr & -> & Hvt & Hft & Hty & Htx & Hget).
  cbn [mbind result_bind].
  destruct (mirror_get tr Hvt Hft)
    as (r & -> & Hvr & _ & Hry & Hrx & Hget').
  destruct (rotate_get m Hv Hf) as (r' & -> & Hvr' & _ & Hry' & Hrx' & Hrot).
  f_equal. apply matrix_ext; [done|done|lia|lia|].
  intros x j Hx Hj.
  rewrite Hrot, Hget' by lia. rewrite Htx. symmetry. apply Hget; lia.
Qed.

Lemma rotate_transpose_mirror_witness :
  valid m32 ∧ float32_valued m32
  ∧ rotate m32 = (tr ← transpose m32; mirror tr).
Proof.
  assert (Hv : valid m32) by (repeat split; vm_compute; congruence).
  assert (Hf : float32_valued m32) by (repeat constructor).
  split; [exact Hv|]. split; [exact Hf|].
  exact (rotate_transpose_mirror m32 Hv Hf).
Defined.

(** X10: four rotations give the matrix back. *)
Theorem rotate_four_times (m : Matrix.t) :
  valid m → float32_valued m →
  (a ← rotate m; b ← rotate a; c ← rotate b; rotate c) = Ok m.
Proof.
  intros Hv Hf.
  destruct (rotate_get m Hv Hf) as (a & -> & Hva & Hfa & Hay & Hax & Ha).
  cbn [mbind result_bind].
  destruct (rotate_get a Hva Hfa) as (b & -> & Hvb & Hfb & Hby & Hbx & Hb).
  cbn [mbind result_bind].
  destruct (rotate_get b Hvb Hfb) as (c & -> & Hvc & Hfc & Hcy & Hcx & Hc).
  cbn [mbind result_bind].
  destruct (rotate_get c Hvc Hfc) as (d & -> & Hvd & _ & Hdy & Hdx & Hd).
  f_equal. apply matrix_ext; [done|done|lia|lia|].
  intros y x Hy Hx.
  rewrite Hd, Hc, Hb, Ha by lia. f_equal; lia.
Qed.

Lemma rotate_four_times_witness :
  valid m32 ∧ float32_valued m32
  ∧ (a ← rotate m32; b ← rotate a; c ← rotate b; rotate c) = Ok m32.
Proof.
  assert (Hv : valid m32) by (repeat split; vm_compute; congruence).
  assert (Hf : float32_valued m32) by (repeat constructor).
  split; [exact Hv|]. split; [exact Hf|].
  exact (rotate_four_times m32 Hv Hf).
Defined.

(** ** [row] *)

(** X11: inside the matrix, [row(y)] returns the 1-row matrix of the
    elements of row [y]. *)
Theorem row_entries (m : Matrix.t) (y : Z) :
  valid m → float32_valued m → 0 ≤ y < ySize m →
  ∃ r, row m y = Ok r
       ∧ valid r ∧ float32_valued r
       ∧ ySize r = 1 ∧ xSize r = xSize m
       ∧ ∀ x, 0 ≤ x < xSize m → get r 0 x = get m y x.
Proof.
  intros Hv Hf Hy. pose proof Hv as (Hys & Hxs & Hlen).
  unfold row. unfold typed_to_array. rewrite slice_row by done.
  destruct (new_rearranged m 1 (xSize m) (λ _ x, get m y x))
    as (r & Hr & Hvr & Hfr & Hry & Hrx & Hvals); [done|done|lia|done| |].
  { intros _ x _ Hx. by exists y, x. }
  unfold row_major in Hr, Hvals.
  change (seqZ 0 1) with [0] in Hr, Hvals.
  cbn [mbind list_bind mjoin fmap list_fmap foldr] in Hr, Hvals.
  rewrite bind_singleton, app_nil_r in Hr, Hvals.
  exists r. split; [exact Hr|]. split; [done|]. split; [done|].
  split; [done|]. split; [done|].
  intros x Hx. apply (get_row_major r (λ _ x, get m y x)); [|lia..].
  rewrite Hry, Hrx. unfold row_major. change (seqZ 0 1) with [0].
  cbn [mbind list_bind mjoin fmap list_fmap foldr].
  by rewrite bind_singleton, app_nil_r.
Qed.

Lemma row_entries_witness :
  valid m32 ∧ float32_valued m32 ∧ 0 ≤ 1 < ySize m32
  ∧ ∃ r, row m32 1 = Ok r
         ∧ valid r ∧ float32_valued r
         ∧ ySize r = 1 ∧ xSize r = xSize m32
         ∧ ∀ x, 0 ≤ x < xSize m32 → get r 0 x = get m32 1 x.
Proof.
  assert (Hv : valid m32) by (repeat split; vm_compute; congruence).
  assert (Hf : float32_valued m32) by (repeat constructor).
  assert (Hy : 0 ≤ 1 < ySize m32) by (vm_compute; split; congruence).
  split; [exact Hv|]. split; [exact Hf|]. split; [exact Hy|].
  exact (row_entries m32 1 Hv Hf Hy).
Defined.

(** X12: on a matrix that has columns, [row(y)] throws 'not enough values'
    when [y] is past the last row, is [-1], or is below [-ySize]: the slice
    it takes is empty. *)
Theorem row_out_of_range (m : Matrix.t) (y : Z) :
  valid m → 1 ≤ xSize m →
  ySize m ≤ y ∨ y = -1 ∨ y < - ySize m →
  row m y = Throw NotEnoughValues.
Proof.
  intros (Hys & _ & Hlen) Hxs Hy. unfold row.
  assert (Hnil : typed_slice (values m) (y * xSize m) (y * xSize m + xSize m)
                 = []).
  { unfold typed_slice, slice_index. rewrite Hlen.
    apply length_zero_iff_nil. rewrite length_take.
    destruct (Z.ltb_spec (y * xSize m) 0),
             (Z.ltb_spec (y * xSize m + xSize m) 0);
      cbn zeta; nia || lia. }
  rewrite Hnil. unfold new. cbn [typed_to_array fmap list_fmap
    Float32Array_from values length Matrix.ySize Matrix.xSize].
  destruct (Z.ltb_spec (Z.of_nat 0) (1 * xSize m)); [done|lia].
Qed.

Lemma row_out_of_range_witness :
  valid m32 ∧ 1 ≤ xSize m32 ∧ row m32 3 = Throw NotEnoughValues
  ∧ row m32 (-1) = Throw NotEnoughValues.
Proof.
  assert (Hv : valid m32) by (repeat split; vm_compute; congruence).
  assert (Hx : 1 ≤ xSize m32) by (vm_compute; congruence).
  split; [exact Hv|]. split; [exact Hx|]. split.
  - apply (row_out_of_range m32 3 Hv Hx). left. vm_compute. congruence.
  - apply (row_out_of_range m32 (-1) Hv Hx). right. left. reflexivity.
Defined.

(** X13: from [-2] down to [-ySize], [row(y)] is [row(ySize + y)]: the
    negative indices of the slice count from the end of the values. *)
Theorem row_negative_wraps (m : Matrix.t) (y : Z) :
  valid m → - ySize m ≤ y ≤ -2 →
  row m y = row m (ySize m + y).
Proof.
  intros (Hys & Hxs & Hlen) Hy. unfold row. do 2 f_equal.
  unfold typed_slice, slice_index. rewrite Hlen.
  destruct (decide (xSize m = 0)) as [H0|H0].
  { rewrite H0, !Z.mul_0_r. done. }
  rewrite !(proj2 (Z.ltb_lt (y * xSize m) 0)) by nia.
  rewrite !(proj2 (Z.ltb_lt (y * xSize m + xSize m) 0)) by nia.
  rewrite !(proj2 (Z.ltb_ge ((ySize m + y) * xSize m) 0)) by nia.
  rewrite !(proj2 (Z.ltb_ge ((ySize m + y) * xSize m + xSize m) 0)) by nia.
  rewrite !Z.max_l, !Z.min_l by nia.
  f_equal; [f_equal; lia|]. f_equal. f_equal. lia.
Qed.

Lemma row_negative_wraps_witness :
  valid m32 ∧ - ySize m32 ≤ -2 ≤ -2
  ∧ row m32 (-2) = row m32 (ySize m32 + -2).
Proof.
  assert (Hv : valid m32) by (repeat split; vm_compute; congruence).
  assert (Hy : - ySize m32 ≤ -2 ≤ -2) by (vm_compute; split; congruence).
  split; [exact Hv|]. split; [exact Hy|].
  exact (row_negative_wraps m32 (-2) Hv Hy).
Defined.

(** ** [col] *)

(** The loop of [col] pushes what [get(y, x)] reads, for every row [y]. *)
Lemma col_eq (m : Matrix.t) (x : Z) :
  col m x
  = new (ySize m) 1 ((λ y, get m y x) <$> seqZ 0 (ySize m)).
Proof.
  unfold col. f_equal. rewrite <- bind_singleton.
  change (seqZ 0 (ySize m) ≫= ?g) with ([] ++ (seqZ 0 (ySize m) ≫= g)).
  apply foldl_append. intros acc y _. unfold push, get.
  by rewrite (Z.add_comm x).
Qed.

(** X14: [col(x)] never throws, whatever [x] is: it returns a 1-column
    matrix of the receiver's height whose element [y] is the stored value
    of what [get(y, x)] reads, [NaN] where that is [undefined]; for a
    column inside a matrix of binary32 values these are the elements of
    column [x]. *)
Theorem col_entries (m : Matrix.t) (x : Z) :
  valid m →
  ∃ r, col m x = Ok r
       ∧ valid r ∧ float32_valued r
       ∧ ySize r = ySize m ∧ xSize r = 1
       ∧ (∀ y, 0 ≤ y < ySize m →
            get r y 0 = Some (fround (to_number (get m y x))))
       ∧ (float32_valued m → 0 ≤ x < xSize m →
          ∀ y, 0 ≤ y < ySize m → get r y 0 = get m y x).
Proof.
  intros Hv. pose proof Hv as (Hys & Hxs & Hlen). rewrite col_eq.
  assert (Hnew : new (ySize m) 1 ((λ y, get m y x) <$> seqZ 0 (ySize m))
                 = Ok (Matrix.mk (Float32Array_from
                                    ((λ y, get m y x) <$> seqZ 0 (ySize m)))
                                 (ySize m) 1)).
  { apply new_Ok. rewrite length_fmap, length_seqZ. lia. }
  rewrite Hnew. eexists. split; [done|].
  assert (Hget : ∀ y, 0 ≤ y < ySize m →
            get (Matrix.mk (Float32Array_from
                              ((λ y, get m y x) <$> seqZ 0 (ySize m)))
                           (ySize m) 1) y 0
            = Some (fround (to_number (get m y x)))).
  { intros y Hy. unfold get at 1, typed_get. cbn [values xSize].
    rewrite (proj2 (Z.ltb_ge _ _)) by lia.
    unfold Float32Array_from. rewrite <- list_fmap_compose, list_lookup_fmap.
    replace (y * 1 + 0) with y by lia.
    rewrite lookup_seqZ_lt by lia. cbn. by rewrite Z2Nat.id by lia. }
  split; [|split; [exact (new_float32_valued _ _ _ _ Hnew)|]].
  - repeat split; cbn; try lia.
    rewrite length_Float32Array_from, length_fmap, length_seqZ. lia.
  - split; [done|]. split; [done|]. split; [exact Hget|].
    intros Hf Hx y Hy. rewrite Hget by done.
    destruct (valid_get m y x Hv Hy Hx) as (v & -> & Hl). cbn. f_equal.
    exact (Forall_lookup_1 _ _ _ _ Hf Hl).
Qed.

Lemma col_entries_witness :
  valid m32
  ∧ ∃ r, col m32 5 = Ok r
         ∧ valid r ∧ float32_valued r
         ∧ ySize r = ySize m32 ∧ xSize r = 1
         ∧ ∀ y, 0 ≤ y < ySize m32 →
                get r y 0 = Some (fround (to_number (get m32 y 5))).
Proof.
  assert (Hv : valid m32) by (repeat split; vm_compute; congruence).
  split; [exact Hv|].
  destruct (col_entries m32 5 Hv) as (r & Hr & Hvr & Hfr & Hy & Hx & Hg & _).
  exists r. split; [exact Hr|]. split; [exact Hvr|]. split; [exact Hfr|].
  split; [exact Hy|]. split; [exact Hx|]. exact Hg.
Defined.

(** ** [map] *)

(** The values [map] leaves; [inverse] ends in a [map]. *)
Lemma map_values (fn : num → num) (m : Matrix.t) :
  valid m →
  ∃ r, Matrix.map fn m = Ok r
       ∧ valid r ∧ float32_valued r
       ∧ ySize r = ySize m ∧ xSize r = xSize m
       ∧ values r = (λ v, fround (fn v)) <$> values m.
Proof.
  intros (Hys & Hxs & Hlen). unfold Matrix.map.
  assert (Hf : Forall (λ v, fround v = v) (typed_map fn (values m))).
  { unfold typed_map. apply Forall_fmap, Forall_true. intros v.
    apply fround_idempotent. }
  rewrite new_Ok, Float32Array_from_typed
    by (done || unfold typed_to_array, typed_map; by rewrite !length_fmap).
  eexists. split; [done|].
  split; [|split; [exact Hf|done]].
  repeat split; cbn; try done. unfold typed_map. by rewrite length_fmap.
Qed.

(** X15: [map(fn)] never throws on a matrix the constructor could have
    built: the result has the same sizes, and holds the binary32 rounding
    of [fn] of each element, rounded once although it is stored twice. *)
Theorem map_entries (fn : num → num) (m : Matrix.t) :
  valid m →
  ∃ r, Matrix.map fn m = Ok r
       ∧ valid r ∧ float32_valued r
       ∧ ySize r = ySize m ∧ xSize r = xSize m
       ∧ values r = (λ v, fround (fn v)) <$> values m.
Proof. exact (map_values fn m). Qed.

Lemma map_entries_witness :
  valid m32
  ∧ ∃ r, Matrix.map (mul (of_Z 2)) m32 = Ok r
         ∧ valid r ∧ float32_valued r
         ∧ ySize r = ySize m32 ∧ xSize r = xSize m32
         ∧ values r = (λ v, fround (mul (of_Z 2) v)) <$> values m32.
Proof.
  assert (Hv : valid m32) by (repeat split; vm_compute; congruence).
  split; [exact Hv|].
  exact (map_entries (mul (of_Z 2)) m32 Hv).
Defined.

(** X16: mapping the identity function over a matrix of binary32 values
    gives the matrix back. *)
Theorem map_identity (m : Matrix.t) :
  valid m → float32_valued m → Matrix.map (λ v, v) m = Ok m.
Proof.
  intros Hv Hf. destruct (map_values (λ v, v) m Hv)
    as (r & -> & _ & _ & Hy & Hx & Hvals).
  f_equal. destruct r as [rv ry rx], m as [mv my mx]. cbn in *. subst.
  f_equal. rewrite <- (list_fmap_id mv) at 2.
  apply Forall_fmap_ext_1. exact Hf.
Qed.

Lemma map_identity_witness :
  valid m32 ∧ float32_valued m32 ∧ Matrix.map (λ v, v) m32 = Ok m32.
Proof.
  assert (Hv : valid m32) by (repeat split; vm_compute; congruence).
  assert (Hf : float32_valued m32) by (repeat constructor).
  split; [exact Hv|]. split; [exact Hf|].
  exact (map_identity m32 Hv Hf).
Defined.

(** X17: two [map]s in a row are one [map] with the composed function,
    the result of the first function rounded to binary32 in between. *)
Theorem map_fusion (f g : num → num) (m : Matrix.t) :
  valid m →
  (r ← Matrix.map f m; Matrix.map g r) = Matrix.map (λ v, g (fround (f v))) m.
Proof.
  intros Hv.
  destruct (map_values f m Hv) as (r & -> & Hvr & _ & Hy & Hx & Hvals).
  cbn [mbind result_bind].
  destruct (map_values g r Hvr) as (r' & -> & _ & _ & Hy' & Hx' & Hvals').
  destruct (map_values (λ v, g (fround (f v))) m Hv)
    as (r'' & -> & _ & _ & Hy'' & Hx'' & Hvals'').
  f_equal. destruct r' as [rv' ry' rx'], r'' as [rv'' ry'' rx''].
  cbn in *. subst. rewrite Hvals, <- list_fmap_compose.
  by rewrite Hy, Hx.
Qed.

Lemma map_fusion_witness :
  valid m32
  ∧ (r ← Matrix.map (mul (of_Z 2)) m32; Matrix.map (add (of_Z 1)) r)
    = Matrix.map (λ v, add (of_Z 1) (fround (mul (of_Z 2) v))) m32.
Proof.
  assert (Hv : valid m32) by (repeat split; vm_compute; congruence).
  split; [exact Hv|].
  exact (map_fusion (mul (of_Z 2)) (add (of_Z 1)) m32 Hv).
Defined.

(** ** [scalar] *)

(** X18: for sizes whose product an [Array] can hold, [scalar] is a
    RangeError when the product is negative, and returns otherwise, also
    for two negative sizes, a matrix of these sizes with every element the
    binary32 rounding of the value. *)
Theorem scalar_outcome (ys xs : Z) (v : num) :
  ys * xs ≤ max_array_length →
  scalar ys xs v
  = if ys * xs <? 0 then Throw InvalidArrayLength
    else Ok (Matrix.mk (replicate (Z.to_nat (ys * xs)) (fround v)) ys xs).
Proof.
  intros _. unfold scalar, Array_new.
  destruct (Z.ltb_spec (ys * xs) 0) as [H|H]; [done|].
  cbn [mbind result_bind]. unfold fill. rewrite length_replicate.
  rewrite new_Ok by (rewrite length_replicate; lia).
  unfold Float32Array_from. by rewrite fmap_replicate.
Qed.

Lemma scalar_outcome_witness :
  (-2) * (-3) ≤ max_array_length
  ∧ scalar (-2) (-3) (of_Z 5)
    = if (-2) * (-3) <? 0 then Throw InvalidArrayLength
      else Ok (Matrix.mk (replicate (Z.to_nat ((-2) * (-3))) (fround (of_Z 5)))
                         (-2) (-3)).
Proof.
  assert (H : (-2) * (-3) ≤ max_array_length) by (vm_compute; congruence).
  split; [exact H|].
  exact (scalar_outcome (-2) (-3) (of_Z 5) H).
Defined.

(** ** The identity matrix *)

(** The elements of [identity(n)] as [Array_new] and the loop build them. *)
Lemma identity_get (n : Z) :
  0 ≤ n →
  ∃ r, identity n = Ok r
       ∧ valid r ∧ float32_valued r ∧ square n r
       ∧ ∀ y x, 0 ≤ y < n → 0 ≤ x < n →
                get r y x = Some (if y =? x then of_Z 1 else zero).
Proof.
  intros Hn. rewrite identity_Ok by done. eexists. split; [done|].
  assert (Hst : Forall (λ o, ∃ v, o = Some v ∧ fround v = v)
                       (identity_values n)).
  { apply Forall_forall. intros o. unfold identity_values.
    intros (y & (x & Ho & _)%list_elem_of_bind & _)%list_elem_of_bind.
    apply list_elem_of_singleton in Ho as ->.
    eexists. split; [done|]. by destruct (y =? x). }
  pose proof (Float32Array_from_stored _ Hst) as Hvals.
  split; [|split; [|split; [done|]]].
  - repeat split; cbn; try done.
    rewrite length_Float32Array_from. by apply length_identity_values.
  - unfold float32_valued. cbn [values]. unfold Float32Array_from.
    apply Forall_fmap, Forall_true. intros o. apply fround_idempotent.
  - intros y x Hy Hx.
    by apply (get_row_major _
                (λ y x, Some (if y =? x then of_Z 1 else zero))).
Qed.

(** X19: for a size [n ≥ 0] whose square an [Array] can hold,
    [identity(n)] returns the [n]×[n] matrix with [1] at [(i, i)] and [0]
    elsewhere. *)
Theorem identity_entries (n : Z) :
  0 ≤ n → n * n ≤ max_array_length →
  ∃ r, identity n = Ok r
       ∧ valid r ∧ float32_valued r ∧ square n r
       ∧ ∀ y x, 0 ≤ y < n → 0 ≤ x < n →
                get r y x = Some (if y =? x then of_Z 1 else zero).
Proof. intros Hn _. exact (identity_get n Hn). Qed.

Lemma identity_entries_witness :
  0 ≤ 3 ∧ 3 * 3 ≤ max_array_length
  ∧ ∃ r, identity 3 = Ok r
         ∧ valid r ∧ float32_valued r ∧ square 3 r
         ∧ ∀ y x, 0 ≤ y < 3 → 0 ≤ x < 3 →
                  get r y x = Some (if y =? x then of_Z 1 else zero).
Proof.
  assert (Hn : 0 ≤ 3) by lia.
  assert (Hb : 3 * 3 ≤ max_array_length) by (vm_compute; congruence).
  split; [exact Hn|]. split; [exact Hb|].
  exact (identity_entries 3 Hn Hb).
Defined.

(** ** Products *)

(** The elements of a product, read off the flat array the three loops
    fill. *)
Lemma multiply_get (a b : Matrix.t) :
  valid a → valid b →
  ∃ r, multiply a (Mat b) = Ok r
       ∧ valid r ∧ float32_valued r
       ∧ ySize r = ySize a ∧ xSize r = xSize b
       ∧ ∀ y x, 0 ≤ y < ySize a → 0 ≤ x < xSize b →
                get r y x = Some (fround (product_entry a b y x)).
Proof.
  intros (Hay & Hax & _) (Hby & Hbx & _).
  rewrite multiply_Mat by done. eexists. split; [done|].
  split; [|split; [|split; [done|split; [done|]]]].
  - repeat split; cbn; try done.
    rewrite length_Float32Array_from. by apply length_product_values.
  - unfold float32_valued. cbn [values]. unfold Float32Array_from.
    apply Forall_fmap, Forall_true. intros o. apply fround_idempotent.
  - intros y x Hy Hx.
    apply (get_row_major _ (λ y x, Some (fround (product_entry a b y x))));
      [|done..].
    cbn [values ySize xSize]. unfold Float32Array_from, product_values.
    fold (row_major (ySize a) (xSize b)
            (λ y x, Some (product_entry a b y x))).
    by rewrite <- list_fmap_compose, fmap_row_major.
Qed.

(** X20: the product of two matrices whose result an [Array] can hold has
    the receiver's height and the argument's width, and at [(y, x)] the
    binary32 rounding of the sum, from [0] and in the order of [z], of
    [a(y, z) * b(z, x)] over the receiver's columns [z]; the sum is formed
    in binary64 and rounded once. *)
Theorem multiply_entries (a b : Matrix.t) :
  valid a → valid b → ySize a * xSize b ≤ max_array_length →
  ∃ r, multiply a (Mat b) = Ok r
       ∧ valid r ∧ float32_valued r
       ∧ ySize r = ySize a ∧ xSize r = xSize b
       ∧ ∀ y x, 0 ≤ y < ySize a → 0 ≤ x < xSize b →
                get r y x = Some (fround (product_entry a b y x)).
Proof. intros Ha Hb _. exact (multiply_get a b Ha Hb). Qed.

Lemma multiply_entries_witness :
  valid m32 ∧ valid m22 ∧ ySize m32 * xSize m22 ≤ max_array_length
  ∧ ∃ r, multiply m32 (Mat m22) = Ok r
         ∧ valid r ∧ float32_valued r
         ∧ ySize r = ySize m32 ∧ xSize r = xSize m22
         ∧ ∀ y x, 0 ≤ y < ySize m32 → 0 ≤ x < xSize m22 →
                  get r y x = Some (fround (product_entry m32 m22 y x)).
Proof.
  assert (Ha : valid m32) by (repeat split; vm_compute; congruence).
  assert (Hb : valid m22) by (repeat split; vm_compute; congruence).
  assert (Hn : ySize m32 * xSize m22 ≤ max_array_length)
    by (vm_compute; congruence).
  split; [exact Ha|]. split; [exact Hb|]. split; [exact Hn|].
  exact (multiply_entries m32 m22 Ha Hb Hn).
Defined.

(** Multiplication of numbers is commutative, rounding included. *)
Lemma mul_commutative (a b : num) : mul a b = mul b a.
Proof.
  unfold mul, SFmul.
  destruct a as [s|s| |s m e], b as [s'|s'| |s' m' e'];
    rewrite ?(xorb_comm s s'); try done.
  by rewrite (Pos.mul_comm m m'), (Z.add_comm e e').
Qed.

(** [1] is a unit of the multiplication on finite binary32 values. *)
Lemma mul_one (v : num) :
  fround v = v → is_finite v = true →
  mul (of_Z 1) v = v ∧ mul v (of_Z 1) = v.
Proof.
  intros Hv Hfin. rewrite (mul_commutative v). apply and_wlog_r; [|done].
  destruct v as [[]| | |b m e]; try discriminate Hfin; try reflexivity.
  exact (mul_one_exact b m e (float32_canonical b m e Hv)).
Qed.

Lemma mul_zero_finite (k v : num) :
  is_zero k = true → is_finite v = true → is_zero (mul k v) = true.
Proof. by destruct v as [| | |], k as [| | |]. Qed.

(** A sum, from [0], whose terms are zeros but for the one at [k]. *)
Lemma sum_single_term (t : Z → num) (n k : Z) :
  0 ≤ k < n →
  (∀ z, 0 ≤ z < n → z ≠ k → is_zero (t z) = true) →
  foldl (λ sum z, add sum (t z)) zero (seqZ 0 n) = add zero (t k).
Proof.
  intros Hk Ht. rewrite (seqZ_split n k) by done.
  rewrite foldl_app. cbn [foldl].
  rewrite (sum_zero_terms _ (seqZ 0 k) zero).
  - apply sum_zero_terms; [apply add_zero_absorbs|].
    intros z Hz%elem_of_seqZ. apply Ht; lia.
  - apply add_zero_zero.
  - intros z Hz%elem_of_seqZ. apply Ht; lia.
Qed.

Lemma add_zero_fround (v : num) :
  fround v = v → fround (add zero v) = add zero v.
Proof. by destruct v as [[]| | |]. Qed.

Lemma add_zero_strict_eq (v : num) :
  is_finite v = true → strict_eq (add zero v) v = true.
Proof.
  destruct v as [[]| | |s m e]; try done. intros _.
  change (add zero (S754_finite s m e)) with (S754_finite s m e).
  by apply strict_eq_refl.
Qed.

(** What both products with the identity hold: [0 + v] for every stored
    [v]. *)
Lemma product_values_unit (m : Matrix.t) (K : Z → Z → option num)
    (ys xs : Z) :
  valid m → float32_valued m → ys = ySize m → xs = xSize m →
  (∀ y x, 0 ≤ y < ySize m → 0 ≤ x < xSize m →
     ∃ v, get m y x = Some v ∧ K y x = Some (add zero v)) →
  Float32Array_from (row_major ys xs K) = add zero <$> values m.
Proof.
  intros Hv Hf -> -> HK. pose proof Hv as (Hys & Hxs & Hlen).
  rewrite (row_major_ext _ _ K (λ y x, add zero <$> get m y x)).
  2:{ intros y x Hy Hx. by destruct (HK y x Hy Hx) as (v & -> & ->). }
  rewrite <- (fmap_row_major (fmap (add zero))), values_row_major by done.
  rewrite <- list_fmap_compose.
  change (fmap (add zero) ∘ Some) with (Some ∘ add zero).
  rewrite list_fmap_compose.
  apply (Float32Array_from_typed (add zero <$> values m)).
  apply Forall_fmap. eapply Forall_impl; [exact Hf|].
  intros v. apply add_zero_fround.
Qed.

Lemma eq_add_zero (m r : Matrix.t) :
  valid m → finite_valued m →
  ySize r = ySize m → xSize r = xSize m →
  values r = add zero <$> values m →
  Matrix.eq r m = true.
Proof.
  intros Hv Hfin Hy Hx Hvals. apply eq_iff; [|done|].
  - destruct Hv as (? & ? & Hlen). repeat split; try lia.
    rewrite Hvals, length_fmap. lia.
  - split; [done|]. split; [done|]. rewrite Hvals.
    apply Forall2_fmap_l, Forall_Forall2_diag.
    eapply Forall_impl; [exact Hfin|]. intros v. apply add_zero_strict_eq.
Qed.

(** X21: the identity is a right unit of the product, up to [eq]: for a
    matrix of finite binary32 values, [m.multiply(identity(xSize))] holds
    [0 + v] for every element [v] of [m], which is [v] but for [-0], which
    becomes [+0]; the product is [eq] to [m]. *)
Theorem multiply_identity_right (m : Matrix.t) :
  valid m → float32_valued m → finite_valued m →
  xSize m * xSize m ≤ max_array_length →
  ySize m * xSize m ≤ max_array_length →
  ∃ r, (i ← identity (xSize m); multiply m (Mat i)) = Ok r
       ∧ ySize r = ySize m ∧ xSize r = xSize m
       ∧ values r = add zero <$> values m
       ∧ Matrix.eq r m = true.
Proof.
  intros Hv Hf Hfin _ _. pose proof Hv as (Hys & Hxs & Hlen).
  destruct (identity_get (xSize m) Hxs)
    as (i & -> & (_ & _ & _) & _ & [Hiy Hix] & Hi).
  cbn [mbind result_bind]. rewrite multiply_Mat by lia.
  eexists. split; [done|]. cbn [ySize xSize values]. rewrite Hix.
  split; [done|]. split; [done|].
  assert (Hvals : Float32Array_from (product_values m i)
                  = add zero <$> values m).
  { unfold product_values. rewrite Hix.
    apply (product_values_unit m
             (λ y x, Some (product_entry m i y x))); [done..|].
    intros y x Hy Hx. destruct (valid_get m y x Hv Hy Hx) as (v & Hg & Hl).
    exists v. split; [done|]. f_equal.
    pose proof (Forall_lookup_1 _ _ _ _ Hf Hl) as Hfv. cbv beta in Hfv.
    pose proof (Forall_lookup_1 _ _ _ _ Hfin Hl) as Hfinv. cbv beta in Hfinv.
    rewrite (product_entry_diagonal m i y x (of_Z 1) zero v); try done.
    - by rewrite (proj2 (mul_one v Hfv Hfinv)).
    - intros z Hz. destruct (valid_get m y z Hv Hy Hz) as (vz & Hgz & Hlz).
      exists vz. split; [done|]. exact (Forall_lookup_1 _ _ _ _ Hfin Hlz).
    - intros z Hz. by apply Hi. }
  split; [exact Hvals|]. by apply eq_add_zero.
Qed.

Lemma multiply_identity_right_witness :
  valid m32 ∧ float32_valued m32 ∧ finite_valued m32
  ∧ xSize m32 * xSize m32 ≤ max_array_length
  ∧ ySize m32 * xSize m32 ≤ max_array_length
  ∧ ∃ r, (i ← identity (xSize m32); multiply m32 (Mat i)) = Ok r
         ∧ ySize r = ySize m32 ∧ xSize r = xSize m32
         ∧ values r = add zero <$> values m32
         ∧ Matrix.eq r m32 = true.
Proof.
  assert (Hv : valid m32) by (repeat split; vm_compute; congruence).
  assert (Hf : float32_valued m32) by (repeat constructor).
  assert (Hfin : finite_valued m32) by (repeat constructor).
  assert (H1 : xSize m32 * xSize m32 ≤ max_array_length)
    by (vm_compute; congruence).
  assert (H2 : ySize m32 * xSize m32 ≤ max_array_length)
    by (vm_compute; congruence).
  split; [exact Hv|]. split; [exact Hf|]. split; [exact Hfin|].
  split; [exact H1|]. split; [exact H2|].
  exact (multiply_identity_right m32 Hv Hf Hfin H1 H2).
Defined.

(** X22: the identity is a left unit of the product in the same way:
    [identity(ySize).multiply(m)] holds [0 + v] for every element [v] of a
    matrix [m] of finite binary32 values, and is [eq] to [m]. *)
Theorem multiply_identity_left (m : Matrix.t) :
  valid m → float32_valued m → finite_valued m →
  ySize m * ySize m ≤ max_array_length →
  ySize m * xSize m ≤ max_array_length →
  ∃ r, (i ← identity (ySize m); multiply i (Mat m)) = Ok r
       ∧ ySize r = ySize m ∧ xSize r = xSize m
       ∧ values r = add zero <$> values m
       ∧ Matrix.eq r m = true.
Proof.
  intros Hv Hf Hfin _ _. pose proof Hv as (Hys & Hxs & Hlen).
  destruct (identity_get (ySize m) Hys)
    as (i & -> & (_ & _ & _) & _ & [Hiy Hix] & Hi).
  cbn [mbind result_bind]. rewrite multiply_Mat by lia.
  eexists. split; [done|]. cbn [ySize xSize values]. rewrite Hiy.
  split; [done|]. split; [done|].
  assert (Hvals : Float32Array_from (product_values i m)
                  = add zero <$> values m).
  { unfold product_values. rewrite Hiy.
    apply (product_values_unit m
             (λ y x, Some (product_entry i m y x))); [done..|].
    intros y x Hy Hx. destruct (valid_get m y x Hv Hy Hx) as (v & Hg & Hl).
    exists v. split; [done|]. f_equal.
    pose proof (Forall_lookup_1 _ _ _ _ Hf Hl) as Hfv. cbv beta in Hfv.
    pose proof (Forall_lookup_1 _ _ _ _ Hfin Hl) as Hfinv. cbv beta in Hfinv.
    unfold product_entry. rewrite Hix.
    rewrite (sum_single_term _ (ySize m) y Hy).
    - rewrite Hi, Z.eqb_refl, Hg by done. cbn [to_number default id].
      by rewrite (proj1 (mul_one v Hfv Hfinv)).
    - intros z Hz Hne. rewrite Hi by done.
      rewrite (proj2 (Z.eqb_neq y z)) by done.
      destruct (valid_get m z x Hv Hz Hx) as (vz & -> & Hlz).
      cbn [to_number default id]. apply mul_zero_finite; [done|].
      exact (Forall_lookup_1 _ _ _ _ Hfin Hlz). }
  split; [exact Hvals|]. by apply eq_add_zero.
Qed.

Lemma multiply_identity_left_witness :
  valid m32 ∧ float32_valued m32 ∧ finite_valued m32
  ∧ ySize m32 * ySize m32 ≤ max_array_length
  ∧ ySize m32 * xSize m32 ≤ max_array_length
  ∧ ∃ r, (i ← identity (ySize m32); multiply i (Mat m32)) = Ok r
         ∧ ySize r = ySize m32 ∧ xSize r = xSize m32
         ∧ values r = add zero <$> values m32
         ∧ Matrix.eq r m32 = true.
Proof.
  assert (Hv : valid m32) by (repeat split; vm_compute; congruence).
  assert (Hf : float32_valued m32) by (repeat constructor).
  assert (Hfin : finite_valued m32) by (repeat constructor).
  assert (H1 : ySize m32 * ySize m32 ≤ max_array_length)
    by (vm_compute; congruence).
  assert (H2 : ySize m32 * xSize m32 ≤ max_array_length)
    by (vm_compute; congruence).
  split; [exact Hv|]. split; [exact Hf|]. split; [exact Hfin|].
  split; [exact H1|]. split; [exact H2|].
  exact (multiply_identity_left m32 Hv Hf Hfin H1 H2).
Defined.

(** X23: the transpose of a product is the product of the transposes in
    the opposite order, element for element: the sums have the same terms
    in the same order. *)
Theorem transpose_product (a b : Matrix.t) :
  valid a → float32_valued a → valid b → float32_valued b →
  xSize a = ySize b → ySize a * xSize b ≤ max_array_length →
  (p ← multiply a (Mat b); transpose p)
  = (bt ← transpose b; at' ← transpose a; multiply bt (Mat at')).
Proof.
  intros Hva Hfa Hvb Hfb Hab _.
  destruct (multiply_get a b Hva Hvb)
    as (p & -> & Hvp & Hfp & Hpy & Hpx & Hp).
  cbn [mbind result_bind].
  destruct (transpose_get p Hvp Hfp)
    as (pt & -> & Hvpt & _ & Hpty & Hptx & Hpt).
  destruct (transpose_get b Hvb Hfb)
    as (bt & -> & Hvbt & _ & Hbty & Hbtx & Hbt).
  cbn [mbind result_bind].
  destruct (transpose_get a Hva Hfa)
    as (at' & -> & Hvat & _ & Haty & Hatx & Hat).
  cbn [mbind result_bind].
  destruct (multiply_get bt at' Hvbt Hvat)
    as (q & -> & Hvq & _ & Hqy & Hqx & Hq).
  f_equal. apply matrix_ext; [done|done|lia|lia|].
  intros x y Hx Hy.
  rewrite Hpt, Hp, Hq by lia. do 2 f_equal.
  unfold product_entry. rewrite Hbtx, Hab.
  apply foldl_ext_in. intros s z Hz%elem_of_seqZ.
  rewrite Hbt, Hat by lia. by rewrite mul_commutative.
Qed.

Lemma transpose_product_witness :
  valid m32 ∧ float32_valued m32 ∧ valid m22 ∧ float32_valued m22
  ∧ xSize m32 = ySize m22 ∧ ySize m32 * xSize m22 ≤ max_array_length
  ∧ (p ← multiply m32 (Mat m22); transpose p)
    = (bt ← transpose m22; at' ← transpose m32; multiply bt (Mat at')).
Proof.
  assert (Hva : valid m32) by (repeat split; vm_compute; congruence).
  assert (Hfa : float32_valued m32) by (repeat constructor).
  assert (Hvb : valid m22) by (repeat split; vm_compute; congruence).
  assert (Hfb : float32_valued m22) by (repeat constructor).
  assert (Hab : xSize m32 = ySize m22) by reflexivity.
  assert (Hn : ySize m32 * xSize m22 ≤ max_array_length)
    by (vm_compute; congruence).
  split; [exact Hva|]. split; [exact Hfa|]. split; [exact Hvb|].
  split; [exact Hfb|]. split; [exact Hab|]. split; [exact Hn|].
  exact (transpose_product m32 m22 Hva Hfa Hvb Hfb Hab Hn).
Defined.

(** ** Minors *)

(** Running over [0 .. n-1] and leaving [k] out is running over
    [0 .. n-2] through [skip k]. *)
Lemma bind_skip {A : Type} (g : Z → list A) (n k : Z) :
  0 ≤ k < n →
  (i ← seqZ 0 n; if negb (i =? k) then g i else [])
  = (i ← seqZ 0 (n - 1); g (skip k i)).
Proof.
  intros Hk. rewrite (seqZ_split n k) by done.
  replace (n - 1) with (k + (n - k - 1)) by lia.
  rewrite (seqZ_app 0 k (n - k - 1)) by lia.
  rewrite !bind_app, bind_cons, Z.eqb_refl. cbn [negb app]. f_equal.
  - apply bind_ext_in. intros i Hi%elem_of_seqZ. unfold skip.
    by rewrite (proj2 (Z.eqb_neq i k)), (proj2 (Z.ltb_lt i k)) by lia.
  - replace (k + 1) with (1 + (0 + k)) by lia.
    rewrite <- (fmap_add_seqZ 1), list_fmap_bind.
    apply bind_ext_in. intros i Hi%elem_of_seqZ. unfold skip. cbn.
    rewrite (proj2 (Z.eqb_neq (1 + i) k)), (proj2 (Z.ltb_ge i k)) by lia.
    cbn. f_equal. lia.
Qed.

Lemma minor_values_skip (m : Matrix.t) (y x : Z) :
  0 ≤ y < ySize m → 0 ≤ x < xSize m →
  minor_values m y x
  = row_major (ySize m - 1) (xSize m - 1)
              (λ i j, get m (skip y i) (skip x j)).
Proof.
  intros Hy Hx. unfold minor_values, row_major.
  rewrite <- (bind_skip (λ iy, j ← seqZ 0 (xSize m - 1);
                               [get m iy (skip x j)])) by done.
  apply bind_ext_in. intros iy _.
  destruct (iy =? y); cbn [negb].
  - apply bind_all_nil. intros ix _. by rewrite andb_false_r.
  - rewrite <- (bind_skip (λ ix, [get m iy ix])) by done.
    apply bind_ext_in. intros ix _. by rewrite andb_true_r.
Qed.

(** X24: inside a matrix of binary32 values, [minor(y, x)] returns the
    matrix one row and one column smaller that has at [(i, j)] the element
    of the receiver at the [i]-th row that is not [y] and the [j]-th column
    that is not [x]. *)
Theorem minor_entries (m : Matrix.t) (y x : Z) :
  valid m → float32_valued m → 0 ≤ y < ySize m → 0 ≤ x < xSize m →
  ∃ r, minor m y x = Ok r
       ∧ valid r ∧ float32_valued r
       ∧ ySize r = ySize m - 1 ∧ xSize r = xSize m - 1
       ∧ ∀ i j, 0 ≤ i < ySize m - 1 → 0 ≤ j < xSize m - 1 →
                get r i j = get m (skip y i) (skip x j).
Proof.
  intros Hv Hf Hy Hx. rewrite minor_eq, minor_values_skip by done.
  destruct (new_rearranged m (ySize m - 1) (xSize m - 1)
              (λ i j, get m (skip y i) (skip x j)))
    as (r & Hr & Hvr & Hfr & Hry & Hrx & Hvals); [done|done|lia|lia| |].
  { intros i j Hi Hj. exists (skip y i), (skip x j). unfold skip.
    destruct (i <? y), (j <? x); repeat split; lia. }
  exists r. split; [exact Hr|]. split; [done|]. split; [done|].
  split; [done|]. split; [done|].
  intros i j Hi Hj.
  apply (get_row_major r (λ i j, get m (skip y i) (skip x j))); [|lia..].
  by rewrite Hry, Hrx.
Qed.

Lemma minor_entries_witness :
  valid m32 ∧ float32_valued m32 ∧ 0 ≤ 1 < ySize m32 ∧ 0 ≤ 0 < xSize m32
  ∧ ∃ r, minor m32 1 0 = Ok r
         ∧ valid r ∧ float32_valued r
         ∧ ySize r = ySize m32 - 1 ∧ xSize r = xSize m32 - 1
         ∧ ∀ i j, 0 ≤ i < ySize m32 - 1 → 0 ≤ j < xSize m32 - 1 →
                  get r i j = get m32 (skip 1 i) (skip 0 j).
Proof.
  assert (Hv : valid m32) by (repeat split; vm_compute; congruence).
  assert (Hf : float32_valued m32) by (repeat constructor).
  assert (Hy : 0 ≤ 1 < ySize m32) by (vm_compute; split; congruence).
  assert (Hx : 0 ≤ 0 < xSize m32) by (vm_compute; split; congruence).
  split; [exact Hv|]. split; [exact Hf|]. split; [exact Hy|].
  split; [exact Hx|].
  exact (minor_entries m32 1 0 Hv Hf Hy Hx).
Defined.

(** Outside a matrix of two rows and two columns at least, nothing is left
    out in one direction at least, and the constructor is given more
    elements than the smaller sizes hold. *)
Lemma length_minor_values_outside (m : Matrix.t) (y x : Z) :
  2 ≤ ySize m → 2 ≤ xSize m →
  ¬ (0 ≤ y < ySize m ∧ 0 ≤ x < xSize m) →
  (ySize m - 1) * (xSize m - 1) < Z.of_nat (length (minor_values m y x)).
Proof.
  intros Hys Hxs Hout. unfold minor_values.
  destruct (decide (0 ≤ y < ySize m)) as [Hy|Hy].
  - assert (Hx : ¬ 0 ≤ x < xSize m) by tauto.
    rewrite (length_bind_except _ _ y (Z.to_nat (xSize m))).
    + rewrite length_seqZ. nia.
    + apply NoDup_seqZ.
    + apply elem_of_seqZ. lia.
    + intros iy _ Hne. rewrite (length_bind_const _ _ 1%nat).
      * rewrite length_seqZ. lia.
      * intros ix Hix%elem_of_seqZ.
        by rewrite (proj2 (Z.eqb_neq ix x)), (proj2 (Z.eqb_neq iy y)) by lia.
    + rewrite bind_all_nil; [done|]. intros ix _.
      by rewrite Z.eqb_refl, andb_false_r.
  - destruct (decide (0 ≤ x < xSize m)) as [Hx|Hx].
    + rewrite (length_bind_const _ _ (Z.to_nat (xSize m - 1))).
      * rewrite length_seqZ. nia.
      * intros iy Hiy%elem_of_seqZ.
        rewrite (length_bind_except _ _ x 1%nat).
        -- rewrite length_seqZ. lia.
        -- apply NoDup_seqZ.
        -- apply elem_of_seqZ. lia.
        -- intros ix _ Hnx.
           by rewrite (proj2 (Z.eqb_neq ix x)), (proj2 (Z.eqb_neq iy y)) by lia.
        -- by rewrite Z.eqb_refl.
    + rewrite (length_bind_const _ _ (Z.to_nat (xSize m))).
      * rewrite length_seqZ. nia.
      * intros iy Hiy%elem_of_seqZ. rewrite (length_bind_const _ _ 1%nat).
        -- rewrite length_seqZ. lia.
        -- intros ix Hix%elem_of_seqZ.
           by rewrite (proj2 (Z.eqb_neq ix x)), (proj2 (Z.eqb_neq iy y)) by lia.
Qed.

(** X25: on a matrix of two rows and two columns at least, [minor(y, x)]
    with a row or a column that the matrix does not have throws 'too many
    values'. *)
Theorem minor_out_of_range (m : Matrix.t) (y x : Z) :
  2 ≤ ySize m → 2 ≤ xSize m →
  ¬ (0 ≤ y < ySize m ∧ 0 ≤ x < xSize m) →
  minor m y x = Throw TooManyValues.
Proof.
  intros Hys Hxs Hout.
  pose proof (length_minor_values_outside m y x Hys Hxs Hout) as Hlen.
  rewrite minor_eq. unfold new. cbn [values Matrix.ySize Matrix.xSize].
  rewrite length_Float32Array_from.
  rewrite (proj2 (Z.ltb_ge _ _)), (proj2 (Z.ltb_lt _ _)) by lia. done.
Qed.

Lemma minor_out_of_range_witness :
  2 ≤ ySize m22 ∧ 2 ≤ xSize m22
  ∧ ¬ (0 ≤ 0 < ySize m22 ∧ 0 ≤ 2 < xSize m22)
  ∧ minor m22 0 2 = Throw TooManyValues.
Proof.
  assert (Hy : 2 ≤ ySize m22) by (vm_compute; congruence).
  assert (Hx : 2 ≤ xSize m22) by (vm_compute; congruence).
  assert (Hout : ¬ (0 ≤ 0 < ySize m22 ∧ 0 ≤ 2 < xSize m22))
    by (vm_compute; intros [_ [_ H]]; congruence).
  split; [exact Hy|]. split; [exact Hx|]. split; [exact Hout|].
  exact (minor_out_of_range m22 0 2 Hy Hx Hout).
Defined.

(** A successful [mapM] maps position by position. *)
Lemma mapM_lookup {A B : Type} (f : A → result B) (l : list A) (r : list B)
    (i : nat) (a : A) :
  mapM f l = Ok r → l !! i = Some a → ∃ b, r !! i = Some b ∧ f a = Ok b.
Proof.
  revert r i. induction l as [|a' l IH]; intros r i Hr Hl; [done|].
  cbn in Hr. apply bind_Ok_inv in Hr as (b' & Hb' & Hr).
  apply bind_Ok_inv in Hr as (r' & Hr' & [= <-]).
  destruct i as [|i]; cbn in *.
  - injection Hl as ->. eauto.
  - eauto.
Qed.

(** The list [minors] builds, by position. *)
Lemma minors_lookup (m : Matrix.t) :
  valid m →
  ∃ ms, minors m = Ok ms
        ∧ Z.of_nat (length ms) = ySize m * xSize m
        ∧ ∀ y x, 0 ≤ y < ySize m → 0 ≤ x < xSize m →
            ∃ mi, ms !! Z.to_nat (y * xSize m + x) = Some mi
                  ∧ minor m y x = Ok mi
                  ∧ valid mi
                  ∧ ySize mi = ySize m - 1 ∧ xSize mi = xSize m - 1.
Proof.
  intros Hv. pose proof Hv as (Hys & Hxs & _). rewrite minors_flat by done.
  destruct (mapM_total (λ _, True) (minor_at m) (seqZ 0 (ySize m * xSize m)))
    as (ms & Hms & _).
  { intros k Hk%elem_of_seqZ. unfold minor_at.
    assert (0 < xSize m) by nia.
    destruct (minor_valid m (k `div` xSize m) (k `mod` xSize m))
      as (mi & Hmi & _); [done| |by apply Z.mod_pos_bound|by eauto].
    split; [apply Z.div_pos; lia|]. apply Z.div_lt_upper_bound; lia. }
  exists ms. split; [done|]. split.
  { rewrite (mapM_Ok_length _ _ _ Hms), length_seqZ. nia. }
  intros y x Hy Hx.
  destruct (mapM_lookup _ _ _ (Z.to_nat (y * xSize m + x))
              (y * xSize m + x) Hms) as (mi & Hl & Hmi).
  { rewrite lookup_seqZ_lt by nia. f_equal. nia. }
  unfold minor_at in Hmi.
  destruct (flat_index (xSize m) y x Hx) as [Hd Hm]. rewrite Hd, Hm in Hmi.
  exists mi. split; [done|]. split; [done|].
  destruct (minor_valid m y x Hv Hy Hx) as (mi' & Hmi' & Hvi & Hyi & Hxi & _).
  rewrite Hmi in Hmi'. by injection Hmi' as <-.
Qed.

(** X26: [minors] never throws on a matrix the constructor could have
    built: it returns as many matrices as the receiver has elements, and
    the one at the flattened index [y * xSize + x] is [minor(y, x)]. *)
Theorem minors_entries (m : Matrix.t) :
  valid m →
  ∃ ms, minors m = Ok ms
        ∧ Z.of_nat (length ms) = ySize m * xSize m
        ∧ ∀ y x, 0 ≤ y < ySize m → 0 ≤ x < xSize m →
            ∃ mi, ms !! Z.to_nat (y * xSize m + x) = Some mi
                  ∧ minor m y x = Ok mi
                  ∧ valid mi
                  ∧ ySize mi = ySize m - 1 ∧ xSize mi = xSize m - 1.
Proof. exact (minors_lookup m). Qed.

Lemma minors_entries_witness :
  valid m32
  ∧ ∃ ms, minors m32 = Ok ms
          ∧ Z.of_nat (length ms) = ySize m32 * xSize m32
          ∧ ∀ y x, 0 ≤ y < ySize m32 → 0 ≤ x < xSize m32 →
              ∃ mi, ms !! Z.to_nat (y * xSize m32 + x) = Some mi
                    ∧ minor m32 y x = Ok mi
                    ∧ valid mi
                    ∧ ySize mi = ySize m32 - 1 ∧ xSize mi = xSize m32 - 1.
Proof.
  assert (Hv : valid m32) by (repeat split; vm_compute; congruence).
  split; [exact Hv|].
  exact (minors_entries m32 Hv).
Defined.

(** ** [adjugate] and [inverse]: which error, if any *)

(** X27: [adjugate] of a matrix that is not square and has a row and a
    column throws 'not square': the minors of its transpose are not
    square, and the determinant of the first one throws. *)
Theorem adjugate_not_square (m : Matrix.t) :
  valid m → 1 ≤ ySize m → 1 ≤ xSize m → xSize m ≠ ySize m →
  adjugate m = Throw NotSquare.
Proof.
  intros Hv Hys Hxs Hne. unfold adjugate.
  destruct (transpose_valid m Hv) as (tr & -> & Htr & Hty & Htx).
  cbn [mbind result_bind].
  destruct (minors_lookup tr Htr) as (ms & -> & Hlen & Hms).
  cbn [mbind result_bind].
  destruct (Hms 0 0) as (mi & Hl & _ & _ & Hyi & Hxi); [lia..|].
  rewrite Z.mul_0_l in Hl. cbn in Hl.
  destruct ms as [|mi' ms]; [done|]. injection Hl as ->.
  rewrite mapiM_sign. cbn [mapM].
  rewrite (determinant_unfold mi), (proj2 (Z.eqb_neq _ _)) by lia. done.
Qed.

Lemma adjugate_not_square_witness :
  valid m32 ∧ 1 ≤ ySize m32 ∧ 1 ≤ xSize m32 ∧ xSize m32 ≠ ySize m32
  ∧ adjugate m32 = Throw NotSquare.
Proof.
  assert (Hv : valid m32) by (repeat split; vm_compute; congruence).
  assert (Hy : 1 ≤ ySize m32) by (vm_compute; congruence).
  assert (Hx : 1 ≤ xSize m32) by (vm_compute; congruence).
  assert (Hne : xSize m32 ≠ ySize m32) by discriminate.
  split; [exact Hv|]. split; [exact Hy|]. split; [exact Hx|].
  split; [exact Hne|].
  exact (adjugate_not_square m32 Hv Hy Hx Hne).
Defined.

(** X28: what [inverse] does on a matrix the constructor could have built.
    Not square: it throws 'not square'.  Square, of any size: the
    determinant is computed, the recursion ending; where it [===] [0],
    'no inverse' is thrown; otherwise the result has the sizes of the
    receiver and holds every element of the adjugate divided by the
    determinant and rounded to binary32. *)
Theorem inverse_outcome (m : Matrix.t) :
  valid m →
  (xSize m ≠ ySize m → inverse m = Throw NotSquare)
  ∧ (xSize m = ySize m →
     ∃ d, determinant m = Ok d
          ∧ if strict_eq d zero then inverse m = Throw NoInverse
            else ∃ a r, adjugate m = Ok a ∧ inverse m = Ok r
                        ∧ ySize r = ySize m ∧ xSize r = xSize m
                        ∧ values r = (λ v, fround (div v d)) <$> values a).
Proof.
  intros Hv. split.
  - intros Hsq. unfold inverse. rewrite determinant_unfold.
    by rewrite (proj2 (Z.eqb_neq _ _) Hsq).
  - intros Hsq. destruct (determinant_total m Hv Hsq) as [d Hd].
    exists d. split; [done|]. unfold inverse.
    rewrite Hd. cbn [mbind result_bind].
    destruct (strict_eq d zero); [done|].
    destruct (adjugate m) as [a|e] eqn:Ha.
    2:{ destruct (adjugate_total m (ySize m) Hv) as (a & Ha' & _); [done|].
        congruence. }
    cbn [mbind result_bind].
    unfold adjugate in Ha.
    apply bind_Ok_inv in Ha as (tr & _ & Ha).
    apply bind_Ok_inv in Ha as (ms & _ & Ha).
    apply bind_Ok_inv in Ha as (vals & _ & Ha).
    pose proof Ha as Hnew. apply new_inv in Hnew as [Ha' Hlen].
    assert (Hva : valid a).
    { destruct Hv as (? & ? & _). subst a. repeat split; cbn; try done.
      by rewrite length_Float32Array_from. }
    destruct (map_values (λ x, div x d) a Hva)
      as (r & Hr & _ & _ & Hry & Hrx & Hvals).
    exists a, r. split; [done|]. split; [done|].
    subst a. cbn in *. done.
Qed.

Lemma inverse_outcome_witness :
  valid minvertable ∧ xSize minvertable = ySize minvertable
  ∧ ∃ d, determinant minvertable = Ok d
         ∧ if strict_eq d zero then inverse minvertable = Throw NoInverse
           else ∃ a r, adjugate minvertable = Ok a
                       ∧ inverse minvertable = Ok r
                       ∧ ySize r = ySize minvertable
                       ∧ xSize r = xSize minvertable
                       ∧ values r = (λ v, fround (div v d)) <$> values a.
Proof.
  assert (Hv : valid minvertable) by (repeat split; vm_compute; congruence).
  assert (Hsq : xSize minvertable = ySize minvertable) by reflexivity.
  split; [exact Hv|]. split; [exact Hsq|].
  exact (proj2 (inverse_outcome minvertable Hv) Hsq).
Defined.
